(** * search_docs.py: inverted index, TF-IDF ranking and snippet extraction

    A shallow embedding of
    [skills/experimental/aws-agentcore/scripts/search_docs.py]:
    the tokenizer, the Markdown field extractors, [IndexSearch.add],
    [IndexSearch.search] and [make_snippet], followed by the properties of
    the natural-language specification that concern them.

    Modelling conventions.
    - A Python [str] is a [list ascii]; texts are ASCII, which is where the
      character classes below agree with Python's ([str.isspace], [\s], [\w],
      [\d], [str.lower], [str.splitlines]).
    - A Python [int] that may be negative is a [Z]; lengths, counts and
      document ordinals are [nat].
    - A Python [float] is a real number: scores are exact reals and
      [math.log] is [ln].
    - [dict]s read by key only are [gmap]s; the [scores] dict, whose
      iteration order feeds the stable sort, is an association list in
      insertion order.
    - [self.docs[idx]] raises [IndexError] out of range: [search] returns an
      [option]. *)

From Stdlib Require Import Reals Lra Ascii String.
From stdpp Require Import gmap strings list fin_maps sorting.

Abbreviation str := (list ascii).

(** Python string literals. *)
Definition py (s : string) : str := list_ascii_of_string s.

(* ===================================================================== *)
(** ** Characters *)
(* ===================================================================== *)

Module Char.

Definition code (c : ascii) : nat := nat_of_ascii c.

Definition between (lo hi : nat) (c : ascii) : bool :=
  (lo <=? code c) && (code c <=? hi).

Definition is_code (n : nat) (c : ascii) : bool := code c =? n.

(** [str.isspace] and the regex class [\s] on ASCII:
    TAB LF VT FF CR, FS GS RS US, and the blank. *)
Definition is_space (c : ascii) : bool :=
  between 9 13 c || between 28 31 c || is_code 32 c.

(** The line boundaries of [str.splitlines] on ASCII:
    LF VT FF CR FS GS RS. *)
Definition is_linebreak (c : ascii) : bool :=
  between 10 13 c || between 28 30 c.

Definition is_newline (c : ascii) : bool := is_code 10 c.
Definition is_cr (c : ascii) : bool := is_code 13 c.
Definition is_upper (c : ascii) : bool := between 65 90 c.
Definition is_lower (c : ascii) : bool := between 97 122 c.
Definition is_digit (c : ascii) : bool := between 48 57 c.

(** The class [[A-Za-z0-9_]] of [_TOKEN]; on ASCII also the class [\w]. *)
Definition is_word (c : ascii) : bool :=
  is_upper c || is_lower c || is_digit c || is_code 95 c.

Definition is_hash (c : ascii) : bool := is_code 35 c.
Definition is_backtick (c : ascii) : bool := is_code 96 c.

(** [str.lower] on one ASCII character. *)
Definition lower (c : ascii) : ascii :=
  if is_upper c then ascii_of_nat (code c + 32) else c.

End Char.

(* ===================================================================== *)
(** ** Python string operations *)
(* ===================================================================== *)

Module Str.

Definition lower (s : str) : str := map Char.lower s.

(** [s.startswith(p)] *)
Fixpoint startswith (p s : str) : bool :=
  match p, s with
  | [], _ => true
  | _ :: _, [] => false
  | a :: p', b :: s' => bool_decide (a = b) && startswith p' s'
  end.

(** [s.endswith(p)] *)
Definition endswith (p s : str) : bool := startswith (rev p) (rev s).

(** [s.lstrip()], [s.rstrip()], [s.strip()] *)
Fixpoint lstrip (s : str) : str :=
  match s with
  | c :: s' => if Char.is_space c then lstrip s' else s
  | [] => []
  end.

Definition rstrip (s : str) : str := rev (lstrip (rev s)).

Definition strip (s : str) : str := rstrip (lstrip s).

(** [sep.join(parts)] *)
Fixpoint join (sep : str) (parts : list str) : str :=
  match parts with
  | [] => []
  | [x] => x
  | x :: rest => x ++ sep ++ join sep rest
  end.

(** The maximal runs of characters satisfying [p], left to right: what
    [re.findall] returns for a pattern [[class]+]. *)
Fixpoint runs (p : ascii → bool) (s : str) : list str :=
  match s with
  | [] => []
  | c :: s' =>
      let rest := runs p s' in
      if p c then
        match s', rest with
        | c' :: _, t :: ts => if p c' then (c :: t) :: ts else [c] :: rest
        | _, _ => [c] :: rest
        end
      else rest
  end.

(** [s.split()]: the maximal runs of non-whitespace characters. *)
Definition split (s : str) : list str :=
  runs (λ c, negb (Char.is_space c)) s.

(** [s.splitlines()]: a line ends at a line boundary, CR LF counting as
    one; no empty last line is produced. *)
Fixpoint splitlines_from (cur : str) (s : str) : list str :=
  match s with
  | [] => match cur with [] => [] | _ => [rev cur] end
  | c :: s' =>
      if Char.is_linebreak c then
        match s' with
        | c' :: s'' =>
            if Char.is_cr c && Char.is_newline c'
            then rev cur :: splitlines_from [] s''
            else rev cur :: splitlines_from [] s'
        | [] => [rev cur]
        end
      else splitlines_from (c :: cur) s'
  end.

Definition splitlines (s : str) : list str := splitlines_from [] s.

(** [s.count(sub)]: the number of non-overlapping occurrences of [sub],
    found left to right; [skip] characters of the last occurrence are
    still to be passed over. *)
Fixpoint count_from (sub : str) (skip : nat) (s : str) : nat :=
  match s with
  | [] => 0
  | _ :: s' =>
      match skip with
      | S k => count_from sub k s'
      | 0 =>
          if startswith sub s
          then S (count_from sub (length sub - 1) s')
          else count_from sub 0 s'
      end
  end.

Definition count (s sub : str) : nat :=
  match sub with
  | [] => S (length s)
  | _ => count_from sub 0 s
  end.

End Str.

(** The slice [l[:n]] of Python, for any integer [n]: a negative [n] counts
    from the end. *)
Definition slice_to {A} (l : list A) (n : Z) : list A :=
  if (0 <=? n)%Z then take (Z.to_nat n) l
  else take (length l - Z.to_nat (- n)) l.

(* ===================================================================== *)
(** ** The regular expressions of the module

    Each pattern is embedded as a scanner that finds the matches of [re]'s
    leftmost, backtracking search in one pass over the text: the state
    records how much of the pattern the current attempt has matched, and
    where an attempt fails the scanner goes on from the first position where
    a later attempt can still succeed. *)
(* ===================================================================== *)

Module Re.

(** [_TOKEN = [A-Za-z0-9_]+], [findall]. *)
Definition TOKEN_findall (s : str) : list str := Str.runs Char.is_word s.

(** [_WHITESPACE = \s+], [sub(' ', s)]: every maximal run of whitespace
    becomes one blank, written when the run's last character is read. *)
Fixpoint WHITESPACE_sub (s : str) : str :=
  match s with
  | [] => []
  | c :: s' =>
      if Char.is_space c then
        match s' with
        | c' :: _ =>
            if Char.is_space c' then WHITESPACE_sub s'
            else " "%char :: WHITESPACE_sub s'
        | [] => [" "%char]
        end
      else c :: WHITESPACE_sub s'
  end.

(** [_CODE_FENCE = ```.*?```] with [re.S], [sub('', s)]: an opening fence
    and everything up to the nearest closing fence is removed; an opening
    fence that is never closed stays, with the text after it. *)
Fixpoint CODE_FENCE_sub (s : str) : str :=
  match s with
  | [] => []
  | c1 :: s1 =>
      match s1 with
      | c2 :: c3 :: rest =>
          if Char.is_backtick c1 && Char.is_backtick c2 && Char.is_backtick c3
          then match CODE_FENCE_close rest with
               | Some kept => kept
               | None => s
               end
          else c1 :: CODE_FENCE_sub s1
      | _ => c1 :: CODE_FENCE_sub s1
      end
  end
with CODE_FENCE_close (s : str) : option str :=
  match s with
  | [] => None
  | c1 :: s1 =>
      match s1 with
      | c2 :: c3 :: rest =>
          if Char.is_backtick c1 && Char.is_backtick c2 && Char.is_backtick c3
          then Some (CODE_FENCE_sub rest)
          else CODE_FENCE_close s1
      | _ => CODE_FENCE_close s1
      end
  end.

(** [re.match(r'^\d+\.', s)] as a truth value. *)
Fixpoint digits_then_dot (s : str) : bool :=
  match s with
  | c :: s' =>
      Char.is_digit c &&
      match s' with
      | c' :: _ => Char.is_code 46 c' || digits_then_dot s'
      | [] => false
      end
  | [] => false
  end.

(** [_MD_HEADER = ^#{1,6}\s+(.+)$] with [re.MULTILINE], [findall]. *)
Inductive header_state :=
| HLineStart                   (* at the start of a line *)
| HSkip                        (* inside a line that is no heading *)
| HHashes (n : nat)            (* [n] hashes read since the line start *)
| HSpace (last : option ascii) (* in the run matched by [\s+] *)
| HText (acc : str).           (* in the group, read so far in reverse *)

(** In [HSpace], [last] is the last character of the whitespace run, its
    first one apart, that is no newline: when the text ends inside the
    run, [\s+] gives it back and the group is that one character. *)
Fixpoint MD_HEADER_scan (st : header_state) (s : str) : list str :=
  match s with
  | [] =>
      match st with
      | HSpace (Some c) => [[c]]
      | HText acc => [rev acc]
      | _ => []
      end
  | c :: s' =>
      match st with
      | HLineStart =>
          if Char.is_hash c then MD_HEADER_scan (HHashes 1) s'
          else if Char.is_newline c then MD_HEADER_scan HLineStart s'
          else MD_HEADER_scan HSkip s'
      | HSkip =>
          if Char.is_newline c then MD_HEADER_scan HLineStart s'
          else MD_HEADER_scan HSkip s'
      | HHashes n =>
          if Char.is_hash c then
            if n <? 6 then MD_HEADER_scan (HHashes (S n)) s'
            else MD_HEADER_scan HSkip s'
          else if Char.is_space c then MD_HEADER_scan (HSpace None) s'
          else MD_HEADER_scan HSkip s'
      | HSpace last =>
          if Char.is_space c then
            MD_HEADER_scan
              (HSpace (if Char.is_newline c then last else Some c)) s'
          else MD_HEADER_scan (HText [c]) s'
      | HText acc =>
          if Char.is_newline c then rev acc :: MD_HEADER_scan HLineStart s'
          else MD_HEADER_scan (HText (c :: acc)) s'
      end
  end.

Definition MD_HEADER_findall (s : str) : list str :=
  MD_HEADER_scan HLineStart s.

(** [_MD_CODE_BLOCK = ```[\w]*\n([\s\S]*?)```], [findall]. *)
Inductive code_state :=
| COut (ticks : nat)             (* outside, after [ticks] backticks *)
| CLang (n : nat)                (* after the fence, in the tag, [n] read *)
| CBody (acc : str) (ticks : nat). (* in the group, read so far in reverse,
                                    ending in [ticks] backticks *)

Fixpoint MD_CODE_BLOCK_scan (st : code_state) (s : str) : list str :=
  match s with
  | [] => []
  | c :: s' =>
      match st with
      | COut ticks =>
          if Char.is_backtick c then
            if ticks =? 2 then MD_CODE_BLOCK_scan (CLang 0) s'
            else MD_CODE_BLOCK_scan (COut (S ticks)) s'
          else MD_CODE_BLOCK_scan (COut 0) s'
      | CLang n =>
          if Char.is_newline c then MD_CODE_BLOCK_scan (CBody [] 0) s'
          else if Char.is_word c then MD_CODE_BLOCK_scan (CLang (S n)) s'
          else if Char.is_backtick c then
            if n =? 0 then MD_CODE_BLOCK_scan (CLang 0) s'
            else MD_CODE_BLOCK_scan (COut 1) s'
          else MD_CODE_BLOCK_scan (COut 0) s'
      | CBody acc ticks =>
          if Char.is_backtick c then
            if ticks =? 2
            then rev (drop 2 acc) :: MD_CODE_BLOCK_scan (COut 0) s'
            else MD_CODE_BLOCK_scan (CBody (c :: acc) (S ticks)) s'
          else MD_CODE_BLOCK_scan (CBody (c :: acc) 0) s'
      end
  end.

Definition MD_CODE_BLOCK_findall (s : str) : list str :=
  MD_CODE_BLOCK_scan (COut 0) s.

(** [_MD_LINK_TEXT = \[([^\]]+)\]\([^)]+\)], [findall]. *)
Inductive link_state :=
| LOut                          (* outside *)
| LText (acc : str)             (* after [[], the group so far in reverse *)
| LClosed (acc : str)           (* after the group and []] *)
| LTarget (acc : str) (n : nat). (* after [(], [n] target characters read *)

Fixpoint MD_LINK_TEXT_scan (st : link_state) (s : str) : list str :=
  match s with
  | [] => []
  | c :: s' =>
      match st with
      | LOut =>
          if Char.is_code 91 c then MD_LINK_TEXT_scan (LText []) s'
          else MD_LINK_TEXT_scan LOut s'
      | LText acc =>
          if Char.is_code 93 c then
            match acc with
            | [] => MD_LINK_TEXT_scan LOut s'
            | _ => MD_LINK_TEXT_scan (LClosed acc) s'
            end
          else MD_LINK_TEXT_scan (LText (c :: acc)) s'
      | LClosed acc =>
          if Char.is_code 40 c then MD_LINK_TEXT_scan (LTarget acc 0) s'
          else if Char.is_code 91 c then MD_LINK_TEXT_scan (LText []) s'
          else MD_LINK_TEXT_scan LOut s'
      | LTarget acc n =>
          if Char.is_code 41 c then
            if n =? 0 then MD_LINK_TEXT_scan LOut s'
            else rev acc :: MD_LINK_TEXT_scan LOut s'
          else MD_LINK_TEXT_scan (LTarget acc (S n)) s'
      end
  end.

Definition MD_LINK_TEXT_findall (s : str) : list str :=
  MD_LINK_TEXT_scan LOut s.

End Re.

(* ===================================================================== *)
(** ** Data *)
(* ===================================================================== *)

(** [@dataclass class Page] *)
Module Page.
Record t := make { url : str; title : str; content : str }.
End Page.

(** [@dataclass class Doc] *)
Module Doc.
Record t := make
  { uri : str; display_title : str; content : str; index_title : str }.
End Doc.

Definition _TITLE_BOOST_EMPTY : nat := 8.
Definition _TITLE_BOOST_SHORT : nat := 5.
Definition _TITLE_BOOST_LONG : nat := 3.
Definition _SHORT_PAGE_THRESHOLD : nat := 800.

(** [normalize(s)] *)
Definition normalize (s : str) : str := Str.strip (Re.WHITESPACE_sub s).

(* ===================================================================== *)
(** ** [make_snippet] *)
(* ===================================================================== *)

Module Snippet.

(** [lines = [line.strip() for line in text.splitlines() if line.strip()]]
    for [text] the stripped content without its code fences. *)
Definition lines_of (content : str) : list str :=
  let text := Re.CODE_FENCE_sub (Str.strip content) in
  omap (λ line, match Str.strip line with [] => None | l => Some l end)
       (Str.splitlines text).

(** The test on the first line. *)
Definition is_title_line (display_title first : str) : bool :=
  Str.startswith (py "#") first
  || Str.startswith (Str.lower (normalize display_title))
                    (Str.lower (normalize first)).

Definition drop_title_line (display_title : str) (lines : list str)
  : list str :=
  match lines with
  | first :: rest =>
      if is_title_line display_title first then rest else lines
  | [] => []
  end.

(** The test that skips a heading, a bullet or a numbered item. *)
Definition is_structure_line (line : str) : bool :=
  let no_leading := Str.lstrip line in
  Str.startswith (py "#") no_leading
  || (Str.startswith (py "-") no_leading
      || Str.startswith (py "*") no_leading)
  || Re.digits_then_dot no_leading.

(** The [for line in lines] loop, from the state [buf]; it returns
    [(paras, buf)] as they are when the loop is left. *)
Fixpoint paragraph_loop (lines : list str) (buf : list str)
  : list str * list str :=
  match lines with
  | [] => ([], buf)
  | line :: rest =>
      if is_structure_line line then
        match buf with
        | [] => paragraph_loop rest buf           (* continue *)
        | _ => ([], buf)                          (* break *)
        end
      else
        let buf := buf ++ [line] in
        if (120 <=? length (Str.join (py " ") buf))
           || Str.endswith (py ".") line
        then ([Str.join (py " ") buf], buf)       (* break *)
        else paragraph_loop rest buf
  end.

(** [paras[0] if paras else display_title], after the [if not paras and
    buf] step. *)
Definition first_paragraph (display_title : str) (lines : list str) : str :=
  let '(paras, buf) := paragraph_loop lines [] in
  let paras :=
    match paras, buf with
    | [], _ :: _ => [Str.join (py " ") buf]
    | _, _ => paras
    end in
  match paras with
  | p :: _ => p
  | [] => display_title
  end.

(** [' '.join(snippet.split())] *)
Definition collapse (snippet : str) : str :=
  Str.join (py " ") (Str.split snippet).

Definition ellipsis : str := py "...".

(** The last [if]: cut to [max_chars - 1] characters and mark. *)
Definition truncate (snippet : str) (max_chars : Z) : str :=
  if (max_chars <? Z.of_nat (length snippet))%Z
  then Str.rstrip (slice_to snippet (max_chars - 1)) ++ ellipsis
  else snippet.

(** What [make_snippet] computes from the lines that are kept. *)
Definition of_lines (lines : list str) (display_title : str) (max_chars : Z)
  : str :=
  truncate (collapse (first_paragraph display_title lines)) max_chars.

End Snippet.

Definition make_snippet (page : option Page.t) (display_title : str)
    (max_chars : Z) : str :=
  match page with
  | None => display_title
  | Some p =>
      match Page.content p with
      | [] => display_title
      | content =>
          Snippet.of_lines
            (Snippet.drop_title_line display_title (Snippet.lines_of content))
            display_title max_chars
      end
  end.

(** The default [max_chars=300]. *)
Definition make_snippet_default (page : option Page.t) (display_title : str)
  : str := make_snippet page display_title 300.

(* ===================================================================== *)
(** ** [class IndexSearch] *)
(* ===================================================================== *)

Record IndexSearch := mkIndexSearch
  { docs : list Doc.t;
    doc_frequency : gmap str nat;
    doc_indices : gmap str (list nat) }.

(** [IndexSearch.__init__] *)
Definition init : IndexSearch :=
  {| docs := []; doc_frequency := ∅; doc_indices := ∅ |}.

(** The fields that [add] extracts from a document, and its haystack. *)
Definition headers_of (doc : Doc.t) : list str :=
  Re.MD_HEADER_findall (Doc.content doc).
Definition code_blocks_of (doc : Doc.t) : list str :=
  Re.MD_CODE_BLOCK_findall (Doc.content doc).
Definition link_text_of (doc : Doc.t) : list str :=
  Re.MD_LINK_TEXT_findall (Doc.content doc).

Definition haystack (doc : Doc.t) : str :=
  let content := Str.lower (Doc.content doc) in
  let title_text := Str.lower (Doc.index_title doc) in
  let headers := Str.join (py " ") (headers_of doc) in
  let code_blocks := Str.join (py " ") (code_blocks_of doc) in
  let link_text := Str.join (py " ") (link_text_of doc) in
  Str.join (py " ")
    [title_text; Str.lower headers; Str.lower link_text;
     Str.lower code_blocks; content].

(** The state of the [for tok in _TOKEN.findall(haystack)] loop. *)
Record add_state := mkAddState
  { st_indices : gmap str (list nat);
    st_frequency : gmap str nat;
    st_seen : gset str }.

(** One turn of the loop. *)
Definition add_token (idx : nat) (st : add_state) (tok : str) : add_state :=
  let indices :=
    <[tok := default [] (st_indices st !! tok) ++ [idx]]> (st_indices st) in
  if decide (tok ∈ st_seen st)
  then {| st_indices := indices;
          st_frequency := st_frequency st;
          st_seen := st_seen st |}
  else {| st_indices := indices;
          st_frequency :=
            <[tok := default 0 (st_frequency st !! tok) + 1]> (st_frequency st);
          st_seen := {[tok]} ∪ st_seen st |}.

(** [IndexSearch.add] *)
Definition add (self : IndexSearch) (doc : Doc.t) : IndexSearch :=
  let idx := length (docs self) in
  let st :=
    foldl (add_token idx)
      {| st_indices := doc_indices self;
         st_frequency := doc_frequency self;
         st_seen := ∅ |}
      (Re.TOKEN_findall (haystack doc)) in
  {| docs := docs self ++ [doc];
     doc_frequency := st_frequency st;
     doc_indices := st_indices st |}.

(** The index after [add] of each document of [ds] in turn, from a fresh
    [IndexSearch]. *)
Definition build (ds : list Doc.t) : IndexSearch := foldl add init ds.

(** [_title_boost_for] *)
Definition _title_boost_for (doc : Doc.t) : nat :=
  let n := length (Doc.content doc) in
  if n =? 0 then _TITLE_BOOST_EMPTY
  else if n <? _SHORT_PAGE_THRESHOLD then _TITLE_BOOST_SHORT
  else _TITLE_BOOST_LONG.

(** [sum(x.lower().count(token) * w for x in parts)] *)
Definition weighted_count (w : nat) (token : str) (parts : list str) : nat :=
  foldr (λ x acc, Str.count (Str.lower x) token * w + acc) 0 parts.

(** The integer that [_calculate_md_score] converts to a float. *)
Definition term_frequency (doc : Doc.t) (token : str) : nat :=
  let content_lower := Str.lower (Doc.content doc) in
  let title_lower := Str.lower (Doc.index_title doc) in
  let content_tf := Str.count content_lower token in
  let title_tf := Str.count title_lower token * _title_boost_for doc in
  let header_tf := weighted_count 4 token (headers_of doc) in
  let code_tf := weighted_count 2 token (code_blocks_of doc) in
  let link_tf := weighted_count 2 token (link_text_of doc) in
  content_tf + title_tf + header_tf + code_tf + link_tf.

(** [_calculate_md_score] *)
Definition _calculate_md_score (doc : Doc.t) (token : str) : R :=
  INR (term_frequency doc token).

(** [q_tokens] *)
Definition q_tokens (query : str) : list str :=
  map Str.lower (Re.TOKEN_findall query).

(** [N = max(len(self.docs), 1)] *)
Definition doc_count (self : IndexSearch) : nat := max (length (docs self)) 1.

(** [math.log((N + 1) / (1 + self.doc_frequency.get(qt, 0))) + 1.0] *)
Definition idf (self : IndexSearch) (qt : str) : R :=
  let N := doc_count self in
  let df := default 0 (doc_frequency self !! qt) in
  (ln (INR (N + 1) / INR (1 + df)) + 1)%R.

(** [scores[idx] = scores.get(idx, 0.0) + x], the dict kept in insertion
    order. *)
Fixpoint scores_add (scores : list (nat * R)) (idx : nat) (x : R)
  : list (nat * R) :=
  match scores with
  | [] => [(idx, (0 + x)%R)]
  | (i, s) :: rest =>
      if decide (i = idx) then (i, (s + x)%R) :: rest
      else (i, s) :: scores_add rest idx x
  end.

(** [for idx in self.doc_indices.get(qt, [])] *)
Fixpoint score_postings (self : IndexSearch) (qt : str) (postings : list nat)
    (scores : list (nat * R)) : option (list (nat * R)) :=
  match postings with
  | [] => Some scores
  | idx :: rest =>
      d ← docs self !! idx;
      let tf := _calculate_md_score d qt in
      score_postings self qt rest (scores_add scores idx (tf * idf self qt)%R)
  end.

(** [for qt in q_tokens] *)
Fixpoint score_tokens (self : IndexSearch) (qts : list str)
    (scores : list (nat * R)) : option (list (nat * R)) :=
  match qts with
  | [] => Some scores
  | qt :: rest =>
      scores ← score_postings self qt
                 (default [] (doc_indices self !! qt)) scores;
      score_tokens self rest scores
  end.

(** [(score, self.docs[i]) for i, score in scores.items()] *)
Fixpoint candidates (self : IndexSearch) (scores : list (nat * R))
  : option (list (R * Doc.t)) :=
  match scores with
  | [] => Some []
  | (i, score) :: rest =>
      d ← docs self !! i;
      cs ← candidates self rest;
      Some ((score, d) :: cs)
  end.

(** [sorted(..., key=lambda x: x[0], reverse=True)]: a stable sort, so the
    result is that of inserting each pair, from the last to the first, in
    front of the first pair whose score is not larger. *)
Fixpoint insert_desc (x : R * Doc.t) (l : list (R * Doc.t))
  : list (R * Doc.t) :=
  match l with
  | [] => [x]
  | y :: l' =>
      if Rlt_dec x.1 y.1 then y :: insert_desc x l' else x :: l
  end.

Definition sorted_desc (l : list (R * Doc.t)) : list (R * Doc.t) :=
  foldr insert_desc [] l.

(** The list [ranked] of [search]. *)
Definition ranked (self : IndexSearch) (query : str)
  : option (list (R * Doc.t)) :=
  scores ← score_tokens self (q_tokens query) [];
  cs ← candidates self scores;
  Some (sorted_desc cs).

(** [IndexSearch.search] *)
Definition search (self : IndexSearch) (query : str) (k : Z)
  : option (list (R * Doc.t)) :=
  r ← ranked self query;
  Some (slice_to r k).

(** The default [k=8]. *)
Definition search_default (self : IndexSearch) (query : str)
  : option (list (R * Doc.t)) := search self query 8.

(* ===================================================================== *)
(** ** URLs and the document list *)
(* ===================================================================== *)

(** [ALLOWED_DOMAINS] *)
Definition ALLOWED_DOMAINS : list str :=
  [ py "https://aws.github.io/bedrock-agentcore-starter-toolkit";
    py "https://strandsagents.com/";
    py "https://docs.aws.amazon.com/";
    py "https://boto3.amazonaws.com/v1/documentation/" ].

(** [is_url_allowed]: the argument is a [str] here, so that the
    [isinstance] test holds; [not url] is the test for the empty string. *)
Definition is_url_allowed (url : str) : bool :=
  match url with
  | [] => false
  | _ => existsb (λ prefix, Str.startswith prefix url) ALLOWED_DOMAINS
  end.

(** The prefix that [normalize_url] puts before a relative URL. *)
Definition URL_BASE : str :=
  py "https://aws.github.io/bedrock-agentcore-starter-toolkit".

(** [normalize_url] *)
Definition normalize_url (url : str) : option str :=
  let url :=
    if Str.startswith (py "http://") url || Str.startswith (py "https://") url
    then url
    else URL_BASE ++ url in
  if is_url_allowed url then Some url else None.

Module Str2.

(** [s.split(sep, 1)[-1]] for a non-empty [sep]: what follows the first
    occurrence of [sep], or [s] itself when there is none. *)
Fixpoint after_first (sep s : str) : option str :=
  match s with
  | [] => None
  | _ :: s' =>
      if Str.startswith sep s then Some (drop (length sep) s)
      else after_first sep s'
  end.

Definition split1_last (sep s : str) : str := default s (after_first sep s).

(** [s.split(c)] for a one-character separator: the pieces between the
    separators, empty ones included. *)
Fixpoint split_char (c : ascii) (s : str) : list str :=
  match s with
  | [] => [[]]
  | x :: s' =>
      if bool_decide (x = c) then [] :: split_char c s'
      else
        match split_char c s' with
        | piece :: pieces => (x :: piece) :: pieces
        | [] => [[x]]
        end
  end.

(** [s.replace(a, b)] for one-character [a] and [b]. *)
Definition replace_char (a b : ascii) (s : str) : str :=
  map (λ x, if bool_decide (x = a) then b else x) s.

Definition is_letter (c : ascii) : bool := Char.is_upper c || Char.is_lower c.

Definition upper_char (c : ascii) : ascii :=
  if Char.is_lower c then ascii_of_nat (Char.code c - 32) else c.

(** [s.title()]: a letter that follows a letter is lowercased, any other
    letter is uppercased; [cased] tells whether the previous character was a
    letter. *)
Fixpoint title_from (cased : bool) (s : str) : str :=
  match s with
  | [] => []
  | c :: s' =>
      (if cased then Char.lower c else upper_char c)
      :: title_from (is_letter c) s'
  end.

Definition title (s : str) : str := title_from false s.

End Str2.

(** [title_from_url] *)
Definition title_from_url (url : str) : str :=
  let path := Str2.split1_last (py "://") url in
  let parts := filter (λ p, p ≠ []) (Str2.split_char "/"%char path) in
  let parts :=
    match last parts with
    | Some l => if Str.startswith (py "index.") l then removelast parts
                else parts
    | None => parts
    end in
  let slug := default path (last parts) in
  let slug :=
    Str.strip
      (Str2.replace_char "_"%char " "%char
         (Str2.replace_char "-"%char " "%char slug)) in
  match Str2.title slug with
  | [] => py "Documentation"
  | t => t
  end.

(** [_MD_LINK = \[([^\]]+)\]\(([^\)]+)\)], [finditer]: the two groups of
    every match. *)
Inductive link2_state :=
| L2Out                              (* outside *)
| L2Text (acc : str)                 (* after [[], group 1 in reverse *)
| L2Closed (acc : str)               (* after group 1 and []] *)
| L2Target (acc : str) (tacc : str). (* after [(], group 2 in reverse *)

Fixpoint MD_LINK_scan (st : link2_state) (s : str) : list (str * str) :=
  match s with
  | [] => []
  | c :: s' =>
      match st with
      | L2Out =>
          if Char.is_code 91 c then MD_LINK_scan (L2Text []) s'
          else MD_LINK_scan L2Out s'
      | L2Text acc =>
          if Char.is_code 93 c then
            match acc with
            | [] => MD_LINK_scan L2Out s'
            | _ => MD_LINK_scan (L2Closed acc) s'
            end
          else MD_LINK_scan (L2Text (c :: acc)) s'
      | L2Closed acc =>
          if Char.is_code 40 c then MD_LINK_scan (L2Target acc []) s'
          else if Char.is_code 91 c then MD_LINK_scan (L2Text []) s'
          else MD_LINK_scan L2Out s'
      | L2Target acc tacc =>
          if Char.is_code 41 c then
            match tacc with
            | [] => MD_LINK_scan L2Out s'
            | _ => (rev acc, rev tacc) :: MD_LINK_scan L2Out s'
            end
          else MD_LINK_scan (L2Target acc (c :: tacc)) s'
      end
  end.

Definition MD_LINK_finditer (s : str) : list (str * str) :=
  MD_LINK_scan L2Out s.

(** [x or y] on strings. *)
Definition str_or (x y : str) : str := match x with [] => y | _ => x end.

(** The loop of [parse_llms_txt] over the matches in the fetched text. *)
Definition links_of_matches (ms : list (str * str)) : list (str * str) :=
  omap (λ m,
          let title := str_or (Str.strip m.1) (Str.strip m.2) in
          match normalize_url (Str.strip m.2) with
          | Some doc_url => Some (title, doc_url)
          | None => None
          end) ms.

Definition llms_links (txt : str) : list (str * str) :=
  links_of_matches (MD_LINK_finditer txt).

(** [parse_llms_txt], over the network function [fetch_url], which answers
    from a state of the world and may change it: [None] stands for the
    exception that [fetch_url] raises and [parse_llms_txt] lets through. *)
Definition parse_llms_txt {World : Type}
    (fetch_url : World → str → World * option str) (w : World) (url : str)
  : World * option (list (str * str)) :=
  match fetch_url w url with
  | (w', Some txt) => (w', Some (llms_links txt))
  | (w', None) => (w', None)
  end.

(** The document that [search_agentcore_docs] indexes for a link. *)
Definition doc_of_link (link : str * str) : Doc.t :=
  let '(title, url) := link in
  let display_title := normalize title in
  let index_title := display_title ++ py " " ++ title_from_url url in
  Doc.make url display_title [] index_title.

(** The index that [search_agentcore_docs] builds from the links. *)
Definition index_of_links (links : list (str * str)) : IndexSearch :=
  foldl (λ index link, add index (doc_of_link link)) init links.

(* ===================================================================== *)
(** ** Notions used by the statements and their proofs *)
(* ===================================================================== *)

(** The tokens of a document's haystack, in order, with repetitions. *)
Definition haystack_tokens (doc : Doc.t) : list str :=
  Re.TOKEN_findall (haystack doc).

(** How many times [t] occurs in a list of tokens. *)
Definition occurrences (t : str) (toks : list str) : nat :=
  length (filter (λ x, x = t) toks).

(** [postings[t]], an absent key read as the empty list. *)
Definition postings (self : IndexSearch) (t : str) : list nat :=
  default [] (doc_indices self !! t).

(** [documentFrequency[t]], an absent key read as [0]. *)
Definition frequency (self : IndexSearch) (t : str) : nat :=
  default 0 (doc_frequency self !! t).

(** The number of distinct ordinals in a postings list. *)
Definition distinct_ordinals (l : list nat) : nat :=
  size (list_to_set (C := gset nat) l).

(** The invariant of the index: for every token, the frequency counts the
    distinct ordinals of its postings, the postings name stored documents
    and are in non-decreasing order, and a token with postings has a
    frequency entry. *)
Definition index_ok (self : IndexSearch) : Prop :=
  ∀ t,
    frequency self t = distinct_ordinals (postings self t)
    ∧ Forall (λ i, i < length (docs self)) (postings self t)
    ∧ StronglySorted le (postings self t)
    ∧ (is_Some (doc_indices self !! t) → is_Some (doc_frequency self !! t)).

(** The two documents of the specification's ranking scenario. *)
Definition scenario_docs : list Doc.t :=
  [ Doc.make (py "u1") (py "Intro") (py "contentA contentA tagX") (py "Intro");
    Doc.make (py "u2") (py "Other") (py "tagY only") (py "Other") ].

(** [Sub l s]: the strings of [l] occur in [s] one after the other, without
    overlap. *)
Inductive Sub : list str → str → Prop :=
| Sub_nil s : Sub [] s
| Sub_cons pre t l s : Sub l s → Sub (t :: l) (pre ++ t ++ s).

(** The tokens of the lowercased join of the strings that a field extractor
    returns. *)
Definition field_tokens (parts : list str) : list str :=
  concat (map (λ x, Re.TOKEN_findall (Str.lower x)) parts).

(** The postings of a token are the ordinals of the documents whose
    haystack has the token. *)
Definition index_members (self : IndexSearch) : Prop :=
  ∀ t i,
    i ∈ postings self t
    ↔ ∃ d, docs self !! i = Some d ∧ t ∈ haystack_tokens d.

(** A document matches a query when a token of its haystack is a token of
    the query. *)
Definition matches (query : str) (d : Doc.t) : Prop :=
  Exists (λ t, t ∈ q_tokens query) (haystack_tokens d).

(** The ordinals, counted from [k], of the documents that satisfy [P]. *)
Fixpoint positions_from (P : Doc.t → Prop) `{!∀ d, Decision (P d)}
    (k : nat) (ds : list Doc.t) : list nat :=
  match ds with
  | [] => []
  | d :: ds' =>
      (if decide (P d) then [k] else []) ++ positions_from P (S k) ds'
  end.

(** The order of [ranked]: scores do not increase. *)
Definition desc (a b : R * Doc.t) : Prop := (b.1 <= a.1)%R.

(** A score paired with the document of its ordinal. *)
Definition candidate_of (self : IndexSearch) (e : nat * R) (c : R * Doc.t)
  : Prop :=
  c.1 = e.2 ∧ docs self !! e.1 = Some c.2.

Global Instance matches_dec query d : Decision (matches query d).
Proof. unfold matches. apply _. Defined.

(** The line feed. *)
Definition LF : ascii := "010"%char.

(** The text that [make_snippet] has before its last [if], for a non-empty
    content: the first paragraph (or the display title) with its whitespace
    collapsed. *)
Definition snippet_text (content display_title : str) : str :=
  Snippet.collapse
    (Snippet.first_paragraph display_title
       (Snippet.drop_title_line display_title (Snippet.lines_of content))).

(* ===================================================================== *)
(** ** HTML pages *)
(* ===================================================================== *)

Module Html.

(** [s.startswith(p)] up to letter case, as [re.IGNORECASE] compares ASCII
    characters. *)
Definition startswith_ci (p s : str) : bool :=
  Str.startswith (Str.lower p) (Str.lower (take (length p) s)).

(** The index of the first occurrence of [pat] in [s], up to letter case
    when [ci] is set. *)
Fixpoint find_from (ci : bool) (pat s : str) : option nat :=
  if (if ci then startswith_ci pat s else Str.startswith pat s) then Some 0
  else
    match s with
    | [] => None
    | _ :: s' => S <$> find_from ci pat s'
    end.

(** [pat in s] *)
Definition contains (pat s : str) : bool :=
  bool_decide (is_Some (find_from false pat s)).

(** The element names of [_HTML_BLOCK], in the order of the pattern. *)
Definition BLOCK_NAMES : list str := [py "script"; py "style"; py "noscript"].

(** The length of the match of
    [_HTML_BLOCK = (?is)<(script|style|noscript).*?>.*?</\1>]
    at the start of [s], if there is one: the name, the first [>] after it,
    and the nearest closing tag of that name after that. *)
Definition HTML_BLOCK_match (s : str) : option nat :=
  match s with
  | c :: rest =>
      if Char.is_code 60 c then
        name ← list_find (λ n, startswith_ci n rest = true) BLOCK_NAMES;
        let name := name.2 in
        let after_name := drop (length name) rest in
        i ← find_from false (py ">") after_name;
        let body := drop (S i) after_name in
        let closing := py "</" ++ name ++ py ">" in
        j ← find_from true closing body;
        Some (1 + length name + S i + j + length closing)
      else None
  | [] => None
  end.

(** [regex.sub(repl, s)] for a pattern given by the length of its match at
    the start of a text, matches being non-empty: [skip] characters of the
    last match are still to be dropped. *)
Fixpoint sub_from (match_at : str → option nat) (repl : str) (skip : nat)
    (s : str) : str :=
  match s with
  | [] => []
  | c :: s' =>
      match skip with
      | S n => sub_from match_at repl n s'
      | 0 =>
          match match_at s with
          | Some (S n) => repl ++ sub_from match_at repl n s'
          | _ => c :: sub_from match_at repl 0 s'
          end
      end
  end.

(** [_HTML_BLOCK.sub('', s)] *)
Definition HTML_BLOCK_sub (s : str) : str := sub_from HTML_BLOCK_match [] 0 s.

(** The length of the match of [_TAG = (?s)<[^>]+>] at the start of [s]. *)
Definition TAG_match (s : str) : option nat :=
  match s with
  | c :: rest =>
      if Char.is_code 60 c then
        match find_from false (py ">") rest with
        | Some (S i) => Some (S (S (S i)))
        | _ => None
        end
      else None
  | [] => None
  end.

(** [_TAG.sub(' ', s)] *)
Definition TAG_sub (s : str) : str := sub_from TAG_match (py " ") 0 s.

(** The group of the match of
    [_TITLE_TAG = (?is)<title[^>]*>(.*?)</title>] at the start of [s]. *)
Definition TITLE_TAG_match (s : str) : option str :=
  if startswith_ci (py "<title") s then
    let after_name := drop 6 s in
    i ← find_from false (py ">") after_name;
    let body := drop (S i) after_name in
    j ← find_from true (py "</title>") body;
    Some (take j body)
  else None.

(** [_TITLE_TAG.search(s)], reduced to the group of the match. *)
Fixpoint TITLE_TAG_search (s : str) : option str :=
  match TITLE_TAG_match s with
  | Some g => Some g
  | None =>
      match s with
      | [] => None
      | _ :: s' => TITLE_TAG_search s'
      end
  end.

End Html.

(** [s.rsplit('/', 1)[-1]]: what follows the last slash. *)
Definition after_last_slash (s : str) : str :=
  default [] (last (Str2.split_char "/"%char s)).

(** An entry of the response of [search_agentcore_docs]: the dict with the
    keys [url], [title], [score] and [snippet]. *)
Module Result.
Record t := make { url : str; title : str; score : R; snippet : str }.
End Result.

Section pages.

(** [html.unescape], of the standard library: its table of character
    references is not part of this repository. *)
Variable unescape : str → str.

(** [html_to_text] *)
Definition html_to_text (raw_html : str) : str :=
  let stripped := Html.HTML_BLOCK_sub raw_html in
  let stripped := Html.TAG_sub stripped in
  let stripped := unescape stripped in
  let lines := map Str.strip (Str.splitlines stripped) in
  Str.join [LF] (filter (λ ln, ln ≠ []) lines).

(** [extract_html_title] *)
Definition extract_html_title (raw_html : str) : option str :=
  match Html.TITLE_TAG_search raw_html with
  | Some g => Some (Str.strip (unescape g))
  | None => None
  end.

(** The network: [fetch_url] answers from a state of the world, which it
    may change; [None] is an exception. *)
Variable World : Type.
Variable fetch_url : World → str → World * option str.

(** [fetch_and_clean]: the [try] block turns an exception of [fetch_url]
    into [None]. *)
Definition fetch_and_clean (w : World) (page_url : str)
  : World * option Page.t :=
  match normalize_url page_url with
  | None => (w, None)
  | Some url =>
      match fetch_url w url with
      | (w', None) => (w', None)
      | (w', Some raw) =>
          let lower := Str.lower raw in
          if Html.contains (py "<html") lower
             || Html.contains (py "<head") lower
             || Html.contains (py "<body") lower
          then
            let title :=
              match extract_html_title raw with
              | Some ((_ :: _) as t) => t
              | _ => after_last_slash url
              end in
            (w', Some (Page.make url title (html_to_text raw)))
          else
            let title := str_or (after_last_slash url) url in
            (w', Some (Page.make url title raw))
      end
  end.

(** [LLMS_TXT_URL], [SNIPPET_HYDRATE_MAX] *)
Definition LLMS_TXT_URL : str :=
  py "https://aws.github.io/bedrock-agentcore-starter-toolkit/llms.txt".
Definition SNIPPET_HYDRATE_MAX : Z := 5.

(** Python's [round(x, ndigits)] on floats, which the model of scores as
    real numbers leaves open. *)
Variable round_ : R → Z → R.

(** The first loop over the results of [search_agentcore_docs]: the pages of
    the first results are fetched into [url_cache], a URL whose page is
    there not being fetched again.  The cache maps a URL to its page; a URL
    that the source maps to [None] has no entry. *)
Fixpoint hydrate (w : World) (url_cache : gmap str Page.t)
    (results : list (R * Doc.t)) : World * gmap str Page.t :=
  match results with
  | [] => (w, url_cache)
  | (_, doc) :: rest =>
      match url_cache !! Doc.uri doc with
      | Some _ => hydrate w url_cache rest
      | None =>
          match fetch_and_clean w (Doc.uri doc) with
          | (w', Some page) =>
              hydrate w' (<[Doc.uri doc := page]> url_cache) rest
          | (w', None) => hydrate w' url_cache rest
          end
      end
  end.

(** The entry of the response for one result. *)
Definition response_entry (url_cache : gmap str Page.t) (result : R * Doc.t)
  : Result.t :=
  let '(score, doc) := result in
  let page := url_cache !! Doc.uri doc in
  let snippet := make_snippet_default page (Doc.display_title doc) in
  Result.make (Doc.uri doc) (Doc.display_title doc) (round_ score 3) snippet.

(** [search_agentcore_docs]; the messages that it prints on the standard
    error stream are left out.  [None] is an exception: the one of
    [fetch_url] for the document list. *)
Definition search_agentcore_docs (w : World) (query : str) (k : Z)
  : World * option (list Result.t) :=
  match parse_llms_txt fetch_url w LLMS_TXT_URL with
  | (w, None) => (w, None)
  | (w, Some links) =>
      let index := index_of_links links in
      match search index query k with
      | None => (w, None)
      | Some results =>
          let '(w, url_cache) :=
            hydrate w ∅ (slice_to results SNIPPET_HYDRATE_MAX) in
          (w, Some (map (response_entry url_cache) results))
      end
  end.

End pages.

(** How many times the ordinal [i] occurs in a postings list. *)
Definition ordinal_count (i : nat) (l : list nat) : nat :=
  length (filter (λ j, j = i) l).



(** The states of the two link scanners that have read the same text. *)
Definition link_states (st : Re.link_state) (st2 : link2_state) : Prop :=
  match st, st2 with
  | Re.LOut, L2Out => True
  | Re.LText acc, L2Text acc2 => acc = acc2
  | Re.LClosed acc, L2Closed acc2 => acc = acc2
  | Re.LTarget acc n, L2Target acc2 tacc => acc = acc2 ∧ n = length tacc
  | _, _ => False
  end.


(** A word: a non-empty string without whitespace. *)
Definition is_word_str (w : str) : Prop :=
  w ≠ [] ∧ Forall (λ c, negb (Char.is_space c) = true) w.

(** A string with a character that is no whitespace. *)
Definition has_text (s : str) : Prop :=
  Exists (λ c, Char.is_space c = false) s.

(** A network that counts its requests: the first component of the world
    is the number of calls of [fetch_url] so far. *)
Definition counting {World : Type}
    (fetch_url : World → str → World * option str)
    (w : nat * World) (url : str) : (nat * World) * option str :=
  let '(w', r) := fetch_url w.2 url in ((S w.1, w'), r).

(** A text without line boundaries. *)
Definition one_line (s : str) : Prop :=
  Forall (λ c, Char.is_linebreak c = false) s.

(* ===================================================================== *)
(** ** Examples of pages and networks *)
(* ===================================================================== *)

(** A page: the title element is found whatever the case of its tags, the
    [style] and [script] elements go with their content, a tag becomes a
    blank, and [<>] is no tag. *)
Definition example_page : str :=
  py "<html><head><TITLE lang=en> Quick  Start </TITLE>" ++ [LF]
  ++ py "<style>p { color: red }</style></head>" ++ [LF]
  ++ py "<body><h1>Quick Start</h1>" ++ [LF]
  ++ py "  <p>Install the <b>toolkit</b>.</p>  " ++ [LF]
  ++ py "<script>if (a < b) { run() }</SCRIPT><> 1 < 2</body></html>".

(** A document list: a relative link, a link into an allowed site with
    blanks around its target, and a link that [normalize_url] rejects. *)
Definition example_list : str :=
  py "# Docs" ++ [LF]
  ++ py "- [Quick  Start](/quickstart.md): first steps" ++ [LF]
  ++ py "- [Runtime]( https://aws.github.io/bedrock-agentcore-starter-toolkit/runtime/index.html )"
  ++ [LF] ++ py "- [Elsewhere](http://example.com/x)".

(** A network without a state that answers the request for the document
    list with [example_list], and no other request. *)
Definition list_only (w : unit) (url : str) : unit * option str :=
  (w, if decide (url = LLMS_TXT_URL) then Some example_list else None).

(** A network without a state that answers the request for the document
    list with [example_list], and every other one with [example_page]. *)
Definition same_page (w : unit) (url : str) : unit * option str :=
  (w, if decide (url = LLMS_TXT_URL) then Some example_list
      else Some example_page).


(* ===================================================================== *)
(** ** The embedding at work *)
(* ===================================================================== *)

Example TOKEN_findall_example :
  Re.TOKEN_findall (py "ab, c_d9  Ef!") = [py "ab"; py "c_d9"; py "Ef"].
Proof. reflexivity. Qed.

(** Seven hashes start no heading; a heading marker alone on its line takes
    the next line as its text, since [\s+] runs over the line end. *)
Example MD_HEADER_findall_example :
  Re.MD_HEADER_findall
    (py "# Title" ++ [LF] ++ py "text" ++ [LF] ++ py "## Sub  x " ++ [LF]
     ++ py "####### no" ++ [LF] ++ py "#" ++ [LF] ++ py "foo")
  = [py "Title"; py "Sub  x "; py "foo"].
Proof. reflexivity. Qed.

Example MD_CODE_BLOCK_findall_example :
  Re.MD_CODE_BLOCK_findall
    (py "a ```py" ++ [LF] ++ py "x = 1" ++ [LF] ++ py "``` b ````" ++ [LF]
     ++ py "y`` ``` ```z")
  = [py "x = 1" ++ [LF]; py "y`` "].
Proof. reflexivity. Qed.

Example MD_LINK_TEXT_findall_example :
  Re.MD_LINK_TEXT_findall
    (py "[a] [b](c) [](d) [e]() [f[g](h) [i](j[k](l)")
  = [py "b"; py "f[g"; py "i"].
Proof. reflexivity. Qed.

Example CODE_FENCE_sub_example :
  Re.CODE_FENCE_sub (py "ab```cd```ef``````gh```ij") = py "abefgh```ij".
Proof. reflexivity. Qed.

Example count_example :
  Str.count (py "aaaa") (py "aa") = 2
  ∧ Str.count (py "category cat") (py "cat") = 2
  ∧ Str.count (py "abc") [] = 4.
Proof. repeat split; reflexivity. Qed.

Example slice_to_example :
  slice_to [1; 2; 3; 4] 2 = [1; 2]
  ∧ slice_to [1; 2; 3; 4] (-1) = [1; 2; 3]
  ∧ slice_to [1; 2; 3; 4] (-9) = [].
Proof. repeat split; reflexivity. Qed.

Example make_snippet_example :
  make_snippet
    (Some (Page.make [] []
             (py "# Head" ++ [LF] ++ py "- item" ++ [LF]
              ++ py "First  line" ++ [LF] ++ py "second line." ++ [LF]
              ++ py "third")))
    (py "T") 300
  = py "First line second line.".
Proof. reflexivity. Qed.

(** The index of the specification's scenario: [contenta] occurs twice in
    the first document and has two postings for it. *)
Example scenario_index :
  doc_indices (build scenario_docs) !! py "contenta" = Some [0; 0]
  ∧ doc_frequency (build scenario_docs) !! py "contenta" = Some 1
  ∧ doc_indices (build scenario_docs) !! py "only" = Some [1]
  ∧ doc_indices (build scenario_docs) !! py "contentA" = None.
Proof. repeat split; vm_compute; reflexivity. Qed.

Example html_to_text_example :
  html_to_text (λ s, s) example_page
  = py "Quick  Start" ++ [LF] ++ py "Quick Start" ++ [LF]
    ++ py "Install the  toolkit ." ++ [LF] ++ py "<> 1".
Proof. reflexivity. Qed.

Example extract_html_title_example :
  extract_html_title (λ s, s) example_page = Some (py "Quick  Start").
Proof. reflexivity. Qed.

Example llms_links_example :
  llms_links example_list
  = [ (py "Quick  Start",
       py "https://aws.github.io/bedrock-agentcore-starter-toolkit/quickstart.md");
      (py "Runtime",
       py "https://aws.github.io/bedrock-agentcore-starter-toolkit/runtime/index.html") ].
Proof. reflexivity. Qed.

Example doc_of_link_example :
  map (λ d, (Doc.display_title d, Doc.index_title d))
      (map doc_of_link (llms_links example_list))
  = [ (py "Quick Start", py "Quick Start Quickstart.Md");
      (py "Runtime", py "Runtime Runtime") ].
Proof. reflexivity. Qed.

Example fetch_and_clean_example :
  fetch_and_clean (λ s, s) unit same_page tt (py "/quickstart/")
  = (tt, Some (Page.make
                 (py "https://aws.github.io/bedrock-agentcore-starter-toolkit/quickstart/")
                 (py "Quick  Start")
                 (html_to_text (λ s, s) example_page))).
Proof. reflexivity. Qed.

(* ===================================================================== *)
(** ** [add]: the token loop *)
(* ===================================================================== *)

Section add_loop.

Variable idx : nat.

Lemma occurrences_cons_eq t toks :
  occurrences t (t :: toks) = S (occurrences t toks).
Proof. unfold occurrences. by rewrite filter_cons_True. Qed.

Lemma occurrences_cons_ne t tok toks :
  tok ≠ t → occurrences t (tok :: toks) = occurrences t toks.
Proof. intros. unfold occurrences. by rewrite filter_cons_False. Qed.

Lemma occurrences_absent t toks : t ∉ toks → occurrences t toks = 0.
Proof.
  induction toks as [|tok toks IH]; [done|].
  rewrite not_elem_of_cons. intros [Hne Hnot].
  rewrite occurrences_cons_ne by done. auto.
Qed.

Lemma occurrences_present t toks : t ∈ toks → 0 < occurrences t toks.
Proof.
  induction toks as [|tok toks IH]; [by intros ?%elem_of_nil|].
  destruct (decide (tok = t)) as [->|Hne].
  - rewrite occurrences_cons_eq. lia.
  - rewrite occurrences_cons_ne, elem_of_cons by done.
    intros [->|?]; [done | auto].
Qed.

Lemma add_token_indices st tok :
  st_indices (add_token idx st tok)
  = <[tok := default [] (st_indices st !! tok) ++ [idx]]> (st_indices st).
Proof. unfold add_token. by case_decide. Qed.

(** The postings after the loop: one ordinal more per occurrence. *)
Lemma add_loop_indices toks st t :
  st_indices (foldl (add_token idx) st toks) !! t
  = if decide (t ∈ toks)
    then Some (default [] (st_indices st !! t)
               ++ replicate (occurrences t toks) idx)
    else st_indices st !! t.
Proof.
  revert st. induction toks as [|tok toks IH]; intros st; cbn [foldl].
  - rewrite decide_False by apply not_elem_of_nil. done.
  - rewrite IH, add_token_indices.
    destruct (decide (tok = t)) as [->|Hne].
    + rewrite lookup_insert_eq; simpl.
      rewrite (decide_True (P := t ∈ t :: toks)) by left.
      rewrite occurrences_cons_eq; simpl.
      case_decide as Hin.
      * by rewrite <- app_assoc.
      * by rewrite occurrences_absent.
    + rewrite lookup_insert_ne by done.
      rewrite occurrences_cons_ne by done.
      case_decide as Hin.
      * rewrite decide_True by by right. done.
      * rewrite decide_False; [done|].
        rewrite not_elem_of_cons. split; [congruence | done].
Qed.

(** The frequencies after the loop: one more for each token that occurs
    and was not seen before the loop. *)
Lemma add_loop_frequency toks st t :
  st_frequency (foldl (add_token idx) st toks) !! t
  = if decide (t ∈ toks ∧ t ∉ st_seen st)
    then Some (default 0 (st_frequency st !! t) + 1)
    else st_frequency st !! t.
Proof.
  revert st. induction toks as [|tok toks IH]; intros st; cbn [foldl].
  - rewrite decide_False; [done|]. intros [H _]. by apply not_elem_of_nil in H.
  - rewrite IH. unfold add_token.
    destruct (decide (tok ∈ st_seen st)) as [Hseen|Hseen];
      cbn [st_indices st_frequency st_seen].
    + (* [tok] was seen: nothing changes for the frequencies *)
      apply decide_ext. rewrite elem_of_cons.
      split; intros [Hin Hfresh]; (split; [|done]); [by right|].
      destruct Hin as [->|Hin]; [contradiction | done].
    + (* first occurrence of [tok] *)
      destruct (decide (tok = t)) as [->|Hne].
      * rewrite lookup_insert_eq.
        rewrite decide_False.
        2:{ intros [_ Hfresh]. apply Hfresh, elem_of_union_l.
            by apply elem_of_singleton. }
        rewrite decide_True; [done|]. split; [left | done].
      * rewrite lookup_insert_ne by done.
        apply decide_ext.
        rewrite elem_of_cons, not_elem_of_union, not_elem_of_singleton.
        split.
        -- intros [Hin [_ Hfresh]]. split; [by right | done].
        -- intros [[->|Hin] Hfresh]; [done|]. repeat split; [done| |done].
           congruence.
Qed.

End add_loop.

Lemma add_docs self doc : docs (add self doc) = docs self ++ [doc].
Proof. done. Qed.

Lemma add_indices self doc t :
  doc_indices (add self doc) !! t
  = if decide (t ∈ haystack_tokens doc)
    then Some (postings self t
               ++ replicate (occurrences t (haystack_tokens doc))
                            (length (docs self)))
    else doc_indices self !! t.
Proof. unfold add; cbn [doc_indices]. by rewrite add_loop_indices. Qed.

Lemma add_frequency self doc t :
  doc_frequency (add self doc) !! t
  = if decide (t ∈ haystack_tokens doc)
    then Some (frequency self t + 1)
    else doc_frequency self !! t.
Proof.
  unfold add; cbn [doc_frequency]. rewrite add_loop_frequency.
  cbn [st_frequency st_seen]. apply decide_ext. split; [by intros [? _]|].
  intros Hin. split; [done | apply not_elem_of_empty].
Qed.

Lemma add_postings self doc t :
  postings (add self doc) t
  = postings self t
    ++ replicate (occurrences t (haystack_tokens doc)) (length (docs self)).
Proof.
  unfold postings at 1. rewrite add_indices. case_decide as Hin; [done|].
  rewrite occurrences_absent by done. simpl. by rewrite app_nil_r.
Qed.

Lemma build_snoc ds doc : build (ds ++ [doc]) = add (build ds) doc.
Proof. unfold build. by rewrite foldl_app. Qed.

Lemma build_docs ds : docs (build ds) = ds.
Proof.
  induction ds as [|doc ds IH] using rev_ind; [done|].
  by rewrite build_snoc, add_docs, IH.
Qed.

(* ===================================================================== *)
(** ** [add]: postings and document frequencies *)
(* ===================================================================== *)

(** The document whose only text is the token [a], twice. *)
Example repeated_token_haystack :
  haystack_tokens (Doc.make [] [] (py "a a") []) = [py "a"; py "a"].
Proof. reflexivity. Qed.

(** C1, as stated, fails: the token [a] occurs twice in the haystack of the
    document with content ["a a"], and [add] appends the ordinal [0] twice
    to its postings, not once. *)
Lemma add_appends_once_counterexample :
  let d := Doc.make [] [] (py "a a") [] in
  py "a" ∈ haystack_tokens d
  ∧ postings (add init d) (py "a") = [0; 0]
  ∧ postings (add init d) (py "a")
    ≠ postings init (py "a") ++ [length (docs init)].
Proof.
  cbv zeta. split; [|split].
  - rewrite repeated_token_haystack. left.
  - reflexivity.
  - intros H. vm_compute in H. discriminate H.
Qed.

(** C1, amended: one call [add(d)] appends [d]'s ordinal to [postings[t]]
    once for every occurrence of [t] among the tokens of [d]'s haystack (at
    least once exactly when [t] occurs there), and nothing else. *)
Theorem add_appends_per_occurrence (self : IndexSearch) (d : Doc.t) (t : str) :
  let n := occurrences t (haystack_tokens d) in
  postings (add self d) t = postings self t ++ replicate n (length (docs self))
  ∧ (t ∈ haystack_tokens d ↔ 1 ≤ n).
Proof.
  cbv zeta. split.
  - unfold postings at 1. unfold add; cbn [doc_indices].
    rewrite add_loop_indices; cbn [st_indices].
    case_decide as Hin; [done|].
    change (Re.TOKEN_findall (haystack d)) with (haystack_tokens d).
    rewrite occurrences_absent by done. cbn [replicate].
    by rewrite app_nil_r.
  - split; [apply occurrences_present|].
    intros Hn. destruct (decide (t ∈ haystack_tokens d)) as [|Hnot]; [done|].
    rewrite occurrences_absent in Hn by done. lia.
Qed.

(** C5: [add(d)] raises [documentFrequency[t]] by exactly one for every
    token [t] of [d]'s haystack, however often [t] recurs there, and leaves
    the entry of every other token as it was. *)
Theorem add_document_frequency (self : IndexSearch) (d : Doc.t) (t : str) :
  doc_frequency (add self d) !! t
  = if decide (t ∈ haystack_tokens d)
    then Some (frequency self t + 1)
    else doc_frequency self !! t.
Proof.
  unfold add; cbn [doc_frequency]. rewrite add_loop_frequency.
  cbn [st_frequency st_seen]. apply decide_ext. split.
  - by intros [Hin _].
  - intros Hin. split; [exact Hin | apply not_elem_of_empty].
Qed.

(* ===================================================================== *)
(** ** The invariant of the index *)
(* ===================================================================== *)

Lemma distinct_ordinals_fresh (l : list nat) (n idx : nat) :
  Forall (λ i, i < idx) l → 0 < n →
  distinct_ordinals (l ++ replicate n idx) = distinct_ordinals l + 1.
Proof.
  intros Hlt Hn. unfold distinct_ordinals.
  rewrite list_to_set_app_L.
  assert (list_to_set (replicate n idx) = ({[idx]} : gset nat)) as ->.
  { apply set_eq. intros x.
    rewrite elem_of_list_to_set, elem_of_replicate, elem_of_singleton.
    split; [by intros [-> _] | intros ->; split; [done | lia]]. }
  rewrite size_union, size_singleton; [done|].
  apply disjoint_singleton_r. rewrite elem_of_list_to_set.
  intros Hin. rewrite Forall_forall in Hlt. specialize (Hlt _ Hin). lia.
Qed.

Lemma StronglySorted_replicate (n x : nat) : StronglySorted le (replicate n x).
Proof.
  induction n as [|n IH]; cbn [replicate]; constructor; [done|].
  apply Forall_forall. by intros y ->%elem_of_replicate_inv.
Qed.

Lemma index_ok_init : index_ok init.
Proof.
  intros t. unfold frequency, postings, distinct_ordinals; cbn.
  rewrite !lookup_empty; cbn.
  repeat split; [constructor | constructor | by intros [? ?]].
Qed.

Lemma index_ok_add self d : index_ok self → index_ok (add self d).
Proof.
  intros Hok t. destruct (Hok t) as (Hfreq & Hlt & Hsorted & Hkeys).
  rewrite add_postings, add_docs, length_app; cbn [length].
  unfold frequency at 1. rewrite add_frequency, add_indices.
  set (n := occurrences t (haystack_tokens d)).
  repeat split.
  - case_decide as Hin; cbn [from_option Datatypes.id].
    + rewrite distinct_ordinals_fresh; [lia | done |].
      by apply occurrences_present.
    + subst n. rewrite occurrences_absent by done. cbn [replicate].
      by rewrite app_nil_r.
  - apply Forall_app. split.
    + eapply Forall_impl; [exact Hlt|]. intros i Hi; cbn in *. lia.
    + apply Forall_forall. intros i ->%elem_of_replicate_inv. lia.
  - apply StronglySorted_app_2; [|done|apply StronglySorted_replicate].
    intros x1 x2 Hx1 ->%elem_of_replicate_inv.
    rewrite Forall_forall in Hlt. specialize (Hlt _ Hx1). cbn in Hlt. lia.
  - case_decide; [by eexists | done].
Qed.

Lemma index_ok_build ds : index_ok (build ds).
Proof.
  induction ds as [|d ds IH] using rev_ind; [apply index_ok_init|].
  rewrite build_snoc. by apply index_ok_add.
Qed.

(** C10: after any sequence of [add] calls from a fresh index, for every
    token with postings, the document frequency is the number of distinct
    ordinals in the postings, every ordinal is below the number of stored
    documents, and the postings are in non-decreasing order. *)
Theorem postings_invariant (ds : list Doc.t) (t : str) (l : list nat) :
  doc_indices (build ds) !! t = Some l →
  doc_frequency (build ds) !! t = Some (distinct_ordinals l)
  ∧ Forall (λ i, i < length (docs (build ds))) l
  ∧ StronglySorted le l.
Proof.
  intros Hl.
  destruct (index_ok_build ds t) as (Hfreq & Hlt & Hsorted & Hkeys).
  unfold postings in *. rewrite Hl in *. cbn [from_option Datatypes.id] in *.
  repeat split; [|done|done].
  destruct Hkeys as [f Hf]; [by eexists|].
  unfold frequency in Hfreq. rewrite Hf in *. cbn [from_option Datatypes.id] in Hfreq.
  by rewrite Hfreq.
Qed.

Lemma postings_invariant_witness :
  doc_indices (build scenario_docs) !! py "contenta" = Some [0; 0]
  ∧ (doc_frequency (build scenario_docs) !! py "contenta"
       = Some (distinct_ordinals [0; 0])
     ∧ Forall (λ i, i < length (docs (build scenario_docs))) [0; 0]
     ∧ StronglySorted le [0; 0]).
Proof.
  assert (doc_indices (build scenario_docs) !! py "contenta" = Some [0; 0])
    as H by (vm_compute; reflexivity).
  split; [exact H | exact (postings_invariant _ _ _ H)].
Defined.

(* ===================================================================== *)
(** ** Strings: tokens are substrings, and [count] finds them *)
(* ===================================================================== *)

Section runs.

Variable p : ascii → bool.

Lemma runs_cons_false c s : p c = false → Str.runs p (c :: s) = Str.runs p s.
Proof. intros H. cbn [Str.runs]. by rewrite H. Qed.

Lemma runs_singleton c : p c = true → Str.runs p [c] = [[c]].
Proof. intros H. cbn [Str.runs]. by rewrite H. Qed.

Lemma runs_cons_true_stop c c' s :
  p c = true → p c' = false →
  Str.runs p (c :: c' :: s) = [c] :: Str.runs p (c' :: s).
Proof.
  intros H H'. cbn [Str.runs]. rewrite H, H'. by destruct (Str.runs p s).
Qed.

Lemma runs_cons_true_go c c' s t ts :
  p c = true → p c' = true → Str.runs p (c' :: s) = t :: ts →
  Str.runs p (c :: c' :: s) = (c :: t) :: ts.
Proof.
  intros H H' Hr.
  change (Str.runs p (c :: c' :: s))
    with (let rest := Str.runs p (c' :: s) in
          if p c then
            match rest with
            | t :: ts => if p c' then (c :: t) :: ts else [c] :: rest
            | [] => [c] :: rest
            end
          else rest).
  cbv zeta. by rewrite H, Hr, H'.
Qed.

(** A text that starts with a [p]-character starts with its first run. *)
Lemma runs_head c s :
  p c = true →
  ∃ t ts post,
    Str.runs p (c :: s) = (c :: t) :: ts
    ∧ s = t ++ post ∧ Str.runs p post = ts
    ∧ match post with c' :: _ => p c' = false | [] => True end.
Proof.
  revert c. induction s as [|c' s IH]; intros c Hc.
  - exists [], [], []. by rewrite runs_singleton.
  - destruct (p c') eqn:Hc'.
    + destruct (IH c' Hc') as (t & ts & post & Hr & -> & Hts & Hpost).
      exists (c' :: t), ts, post.
      by rewrite (runs_cons_true_go _ _ _ _ _ Hc Hc' Hr).
    + exists [], (Str.runs p (c' :: s)), (c' :: s).
      by rewrite runs_cons_true_stop.
Qed.

(** A separator between two texts separates their runs. *)
Lemma runs_app_sep a c b :
  p c = false → Str.runs p (a ++ c :: b) = Str.runs p a ++ Str.runs p b.
Proof.
  intros Hc. induction a as [|x a IH]; cbn [app].
  - by rewrite runs_cons_false.
  - destruct (p x) eqn:Hx.
    2:{ by rewrite !runs_cons_false. }
    destruct a as [|x' a]; cbn [app] in *.
    + rewrite runs_cons_true_stop, runs_singleton, runs_cons_false by done.
      done.
    + destruct (p x') eqn:Hx'.
      * destruct (runs_head x' a Hx') as (t & ts & post & Hr & _).
        rewrite (runs_cons_true_go _ _ _ _ _ Hx Hx' Hr).
        rewrite Hr in IH. cbn [app] in IH.
        by rewrite (runs_cons_true_go _ _ _ _ _ Hx Hx' IH).
      * rewrite !(runs_cons_true_stop x x') by done. by rewrite IH.
Qed.

Lemma Sub_weaken l x s : Sub l s → Sub l (x ++ s).
Proof.
  destruct 1 as [s|pre t l s Hl]; [constructor|].
  rewrite (app_assoc x pre). by constructor.
Qed.

(** The runs of a text occur in it, in order and without overlap. *)
Lemma runs_Sub s : Sub (Str.runs p s) s.
Proof.
  remember (length s) as n eqn:Hn. revert s Hn.
  induction n as [n IH] using lt_wf_ind. intros s ->.
  destruct s as [|c s]; [constructor|].
  destruct (p c) eqn:Hc.
  - destruct (runs_head c s Hc) as (t & ts & post & Hr & -> & <- & _).
    rewrite Hr. apply (Sub_cons [] (c :: t)).
    eapply IH; [|done]. cbn [length]. rewrite length_app. lia.
  - rewrite runs_cons_false by done.
    apply (Sub_weaken _ [c]). eapply IH; [|done]. cbn [length]. lia.
Qed.

Lemma runs_nonempty s t : t ∈ Str.runs p s → t ≠ [].
Proof.
  remember (length s) as n eqn:Hn. revert s Hn.
  induction n as [n IH] using lt_wf_ind. intros s ->.
  destruct s as [|c s]; [by intros ?%elem_of_nil|].
  destruct (p c) eqn:Hc.
  - destruct (runs_head c s Hc) as (t' & ts & post & Hr & -> & <- & _).
    rewrite Hr, elem_of_cons. intros [->|Hin]; [done|].
    eapply IH; [|done|done]. cbn [length]. rewrite length_app. lia.
  - rewrite runs_cons_false by done.
    eapply IH; [|done]. cbn [length]. lia.
Qed.

End runs.

Lemma Sub_elem_of l s t :
  Sub l s → t ∈ l → ∃ pre post, s = pre ++ t ++ post.
Proof.
  induction 1 as [s|pre t' l s Hl IH]; [by intros ?%elem_of_nil|].
  rewrite elem_of_cons. intros [->|Hin]; [by eauto|].
  destruct (IH Hin) as (pre' & post' & ->).
  exists (pre ++ t' ++ pre'), post'. by rewrite <- !app_assoc.
Qed.

Lemma Sub_filter (P : str → Prop) `{!∀ x, Decision (P x)} l s :
  Sub l s → Sub (filter P l) s.
Proof.
  induction 1 as [s|pre t l s Hl IH]; [constructor|].
  rewrite filter_cons. case_decide.
  - by constructor.
  - rewrite app_assoc. by apply Sub_weaken.
Qed.

Lemma startswith_app t s : Str.startswith t (t ++ s) = true.
Proof.
  induction t as [|c t IH]; [done|]. cbn [app Str.startswith].
  by rewrite bool_decide_eq_true_2, IH.
Qed.

Lemma startswith_refl t : Str.startswith t t = true.
Proof. rewrite <- (app_nil_r t) at 2. apply startswith_app. Qed.

Lemma startswith_prefix t s :
  Str.startswith t s = true → ∃ post, s = t ++ post.
Proof.
  revert s. induction t as [|c t IH]; intros s; [by exists s|].
  destruct s as [|c' s]; [done|]. cbn [Str.startswith].
  rewrite andb_true_iff, bool_decide_eq_true. intros [-> H].
  destruct (IH _ H) as [post ->]. by exists post.
Qed.

(** [count] is at least the number of disjoint occurrences one can point
    at: the leftmost-first search of [str.count] misses none of them. *)
Lemma count_from_Sub t s :
  t ≠ [] →
  ∀ k l, Sub l (drop k s) → Forall (λ x, x = t) l →
         length l ≤ Str.count_from t k s.
Proof.
  intros Ht. induction s as [|c s IH]; intros k l Hsub Hall.
  - rewrite drop_nil in Hsub. inversion Hsub as [|pre t' l' s' Hl' Heq]; subst.
    + done.
    + apply Forall_cons in Hall as [-> _].
      destruct pre, t; done.
  - destruct k as [|k]; cbn [Str.count_from].
    + rewrite drop_0 in Hsub.
      inversion Hsub as [|pre t' l' s' Hl' Heq Hcs]; subst; [cbn; lia|].
      apply Forall_cons in Hall as [-> Hall]. rewrite ?Hcs.
      destruct (Str.startswith t (c :: s)) eqn:Hstart.
      * cbn [length]. apply le_n_S. apply IH; [|done].
        assert (drop (length t - 1) s = drop (length t) (c :: s)) as ->.
        { destruct t as [|? t]; [done|]. cbn [length].
          by replace (S (length t) - 1) with (length t) by lia. }
        rewrite <- Hcs, app_assoc, drop_app_le by (rewrite length_app; lia).
        by apply Sub_weaken.
      * destruct pre as [|c' pre]; cbn [app] in Hcs.
        { rewrite <- Hcs, startswith_app in Hstart. done. }
        injection Hcs as -> <-. apply IH; [|by constructor].
        rewrite drop_0. by constructor.
    + apply IH; [|done]. by rewrite skipn_cons in Hsub.
Qed.

Lemma count_Sub t s l :
  t ≠ [] → Sub l s → Forall (λ x, x = t) l → length l ≤ Str.count s t.
Proof.
  intros Ht Hsub Hall. destruct t as [|c t]; [done|].
  cbn [Str.count]. apply count_from_Sub; [done| |done]. by rewrite drop_0.
Qed.

(** A token occurs in its text at least as often as [count] says... *)
Lemma occurrences_runs_count p s t :
  occurrences t (Str.runs p s) ≤ Str.count s t.
Proof.
  destruct (decide (t ∈ Str.runs p s)) as [Hin|Hnot].
  - apply count_Sub.
    + by eapply runs_nonempty.
    + apply Sub_filter, runs_Sub.
    + apply Forall_forall. by intros x [? _]%list_elem_of_filter.
  - rewrite occurrences_absent by done. lia.
Qed.

(** ...so a token of a text is counted at least once in it. *)
Lemma count_token p s t : t ∈ Str.runs p s → 1 ≤ Str.count s t.
Proof.
  intros Hin. etrans; [|apply occurrences_runs_count].
  by apply occurrences_present.
Qed.

(* ===================================================================== *)
(** ** The haystack and the term frequency *)
(* ===================================================================== *)

Lemma lower_app a b : Str.lower (a ++ b) = Str.lower a ++ Str.lower b.
Proof. apply map_app. Qed.

Lemma lower_join_blank l :
  Str.lower (Str.join (py " ") l) = Str.join (py " ") (map Str.lower l).
Proof.
  induction l as [|x [|y l] IH]; [done..|].
  change (Str.lower (x ++ py " " ++ Str.join (py " ") (y :: l))
          = Str.lower x ++ py " " ++ Str.join (py " ") (map Str.lower (y :: l))).
  by rewrite !lower_app, IH.
Qed.

Lemma tokens_app_blank a b :
  Re.TOKEN_findall (a ++ py " " ++ b)
  = Re.TOKEN_findall a ++ Re.TOKEN_findall b.
Proof. by apply runs_app_sep. Qed.

Lemma tokens_join_blank l :
  Re.TOKEN_findall (Str.join (py " ") l)
  = concat (map Re.TOKEN_findall l).
Proof.
  induction l as [|x [|y l] IH]; [done| |].
  - cbn [Str.join map concat]. by rewrite app_nil_r.
  - change (Re.TOKEN_findall (x ++ py " " ++ Str.join (py " ") (y :: l))
            = Re.TOKEN_findall x ++ concat (map Re.TOKEN_findall (y :: l))).
    by rewrite tokens_app_blank, IH.
Qed.

Lemma tokens_lower_join parts :
  Re.TOKEN_findall (Str.lower (Str.join (py " ") parts)) = field_tokens parts.
Proof.
  rewrite lower_join_blank, tokens_join_blank. unfold field_tokens.
  by rewrite map_map.
Qed.

(** The tokens of the haystack, field by field. *)
Lemma haystack_tokens_fields d :
  haystack_tokens d
  = Re.TOKEN_findall (Str.lower (Doc.index_title d))
    ++ field_tokens (headers_of d)
    ++ field_tokens (link_text_of d)
    ++ field_tokens (code_blocks_of d)
    ++ Re.TOKEN_findall (Str.lower (Doc.content d)).
Proof.
  unfold haystack_tokens, haystack. cbv zeta.
  cbn [Str.join]. rewrite !tokens_app_blank.
  by rewrite !tokens_lower_join.
Qed.

Lemma elem_of_field_tokens t parts :
  t ∈ field_tokens parts
  ↔ ∃ x, x ∈ parts ∧ t ∈ Re.TOKEN_findall (Str.lower x).
Proof.
  unfold field_tokens. induction parts as [|y parts IH]; cbn [map concat].
  - split; [by intros ?%elem_of_nil | by intros (x & ?%elem_of_nil & _)].
  - rewrite elem_of_app, IH. split.
    + intros [Ht|(x & Hx & Ht)]; [exists y | exists x];
        (split; [|done]); [left | by right].
    + intros (x & [->|Hx]%elem_of_cons & Ht); [by left | right; eauto].
Qed.

Lemma weighted_count_pos w token parts x :
  0 < w → x ∈ parts → 1 ≤ Str.count (Str.lower x) token →
  1 ≤ weighted_count w token parts.
Proof.
  intros Hw Hx Hc. induction Hx as [x parts|y x parts Hx IH];
    cbn [weighted_count foldr]; [nia|].
  unfold weighted_count in IH. lia.
Qed.

Lemma weighted_count_zero w token parts :
  (∀ x, x ∈ parts → Str.count (Str.lower x) token = 0) →
  weighted_count w token parts = 0.
Proof.
  induction parts as [|x parts IH]; intros H; [done|].
  cbn [weighted_count foldr]. rewrite H by left. cbn.
  apply IH. intros y Hy. apply H. by right.
Qed.

Lemma title_boost_pos d : 1 ≤ _title_boost_for d.
Proof.
  unfold _title_boost_for, _TITLE_BOOST_EMPTY, _TITLE_BOOST_SHORT,
    _TITLE_BOOST_LONG.
  cbv zeta. repeat case_match; lia.
Qed.

(** Whatever field of the haystack a token comes from, that field counts
    it: the term frequency of a token of the haystack is positive. *)
Lemma term_frequency_pos d t :
  t ∈ haystack_tokens d → 1 ≤ term_frequency d t.
Proof.
  rewrite haystack_tokens_fields, !elem_of_app, !elem_of_field_tokens.
  unfold term_frequency. cbv zeta.
  intros [Ht|[(x & Hx & Ht)|[(x & Hx & Ht)|[(x & Hx & Ht)|Ht]]]];
    apply count_token in Ht.
  - pose proof (title_boost_pos d). nia.
  - pose proof (weighted_count_pos 4 t _ x ltac:(lia) Hx Ht). lia.
  - pose proof (weighted_count_pos 2 t _ x ltac:(lia) Hx Ht). lia.
  - pose proof (weighted_count_pos 2 t _ x ltac:(lia) Hx Ht). lia.
  - lia.
Qed.

(* ===================================================================== *)
(** ** The index that [add] builds *)
(* ===================================================================== *)

Lemma index_members_init : index_members init.
Proof.
  intros t i. unfold postings; cbn. rewrite lookup_empty; cbn. split.
  - by intros ?%elem_of_nil.
  - by intros (d & ? & _).
Qed.

Lemma index_members_add self d :
  index_members self → index_members (add self d).
Proof.
  intros Hm t i. unfold index_members in Hm.
  rewrite add_postings, add_docs, elem_of_app, Hm.
  rewrite elem_of_replicate. split.
  - intros [(d' & Hd' & Ht)|[-> Hn]].
    + exists d'. split; [|done]. apply lookup_app_l_Some, Hd'.
    + exists d. split; [by rewrite list_lookup_middle|].
      destruct (decide (t ∈ haystack_tokens d)) as [|Hnot]; [done|].
      by rewrite occurrences_absent in Hn.
  - intros (d' & [[_ Hd']|[-> ->]]%lookup_snoc_Some & Ht); [left; eauto|].
    right. split; [done|]. apply occurrences_present in Ht. lia.
Qed.

Lemma index_members_build ds : index_members (build ds).
Proof.
  induction ds as [|d ds IH] using rev_ind; [apply index_members_init|].
  rewrite build_snoc. by apply index_members_add.
Qed.

(** No token is in more documents than there are. *)
Lemma frequency_le_docs ds t : frequency (build ds) t ≤ length ds.
Proof.
  induction ds as [|d ds IH] using rev_ind; [done|].
  rewrite build_snoc, length_app. unfold frequency at 1.
  rewrite add_frequency. cbn [length]. case_decide; cbn; [lia|].
  unfold frequency in IH. lia.
Qed.

(* ===================================================================== *)
(** ** The inverse document frequency *)
(* ===================================================================== *)

Lemma idf_ge_1 ds qt : (1 <= idf (build ds) qt)%R.
Proof.
  unfold idf, doc_count. cbv zeta. rewrite build_docs.
  pose proof (frequency_le_docs ds qt) as Hle. unfold frequency in Hle.
  set (df := default 0 (doc_frequency (build ds) !! qt)) in *.
  set (N := length ds `max` 1).
  assert (0 < INR (1 + df))%R as Hpos by (apply lt_0_INR; lia).
  assert (INR (1 + df) <= INR (N + 1))%R as HleR by (apply le_INR; lia).
  assert (1 <= INR (N + 1) / INR (1 + df))%R as Hq.
  { apply (Rmult_le_reg_r (INR (1 + df))); [done|].
    unfold Rdiv. rewrite Rmult_assoc, Rinv_l by lra. lra. }
  destruct Hq as [Hq|Hq].
  - apply ln_increasing in Hq; [|lra]. rewrite ln_1 in Hq. lra.
  - rewrite <- Hq, ln_1. lra.
Qed.

(** The contribution of one posting to a score is positive. *)
Lemma posting_score_pos ds qt d :
  qt ∈ haystack_tokens d →
  (0 < _calculate_md_score d qt * idf (build ds) qt)%R.
Proof.
  intros Hin. apply Rmult_lt_0_compat.
  - apply lt_0_INR. apply term_frequency_pos in Hin. lia.
  - pose proof (idf_ge_1 ds qt). lra.
Qed.

(* ===================================================================== *)
(** ** The [scores] dict *)
(* ===================================================================== *)

Lemma scores_add_keys scores i x :
  (scores_add scores i x).*1
  = if decide (i ∈ scores.*1) then scores.*1 else scores.*1 ++ [i].
Proof.
  induction scores as [|[j s] scores IH]; cbn [scores_add].
  - by rewrite decide_False by apply not_elem_of_nil.
  - destruct (decide (j = i)) as [->|Hne]; cbn [fmap list_fmap fst].
    + by rewrite decide_True by left.
    + change (list_fmap _ _ fst ?l) with (l.*1). rewrite IH.
      destruct (decide (i ∈ scores.*1)) as [Hin|Hnot].
      * by rewrite decide_True by by right.
      * rewrite decide_False; [done|].
        rewrite not_elem_of_cons. split; [congruence | done].
Qed.

Lemma scores_add_pos scores i x :
  (0 < x)%R →
  Forall (λ e, (0 < e.2)%R) scores →
  Forall (λ e, (0 < e.2)%R) (scores_add scores i x).
Proof.
  intros Hx. induction 1 as [|[j s] scores Hs Hall IH]; cbn [scores_add].
  - constructor; [cbn; lra | constructor].
  - case_decide; constructor; try done. cbn in *. lra.
Qed.

Lemma scores_add_NoDup scores i x :
  NoDup scores.*1 → NoDup (scores_add scores i x).*1.
Proof.
  intros Hnd. rewrite scores_add_keys. case_decide as Hin; [done|].
  apply NoDup_app. repeat split; [done| |apply NoDup_singleton].
  intros j Hj ->%list_elem_of_singleton. done.
Qed.

Lemma elem_of_scores_add_keys scores i x j :
  j ∈ (scores_add scores i x).*1 ↔ j ∈ scores.*1 ∨ j = i.
Proof.
  rewrite scores_add_keys. case_decide as Hin.
  - split; [by left|]. by intros [?| ->].
  - by rewrite elem_of_app, list_elem_of_singleton.
Qed.

(** The inner loop of [search], when every posting names a document whose
    contribution is positive. *)
Lemma score_postings_spec self qt post scores :
  (∀ i, i ∈ post →
        ∃ d, docs self !! i = Some d
             ∧ (0 < _calculate_md_score d qt * idf self qt)%R) →
  Forall (λ e, (0 < e.2)%R) scores →
  ∃ scores',
    score_postings self qt post scores = Some scores'
    ∧ Forall (λ e, (0 < e.2)%R) scores'
    ∧ (NoDup scores.*1 → NoDup scores'.*1)
    ∧ ∀ i, i ∈ scores'.*1 ↔ i ∈ scores.*1 ∨ i ∈ post.
Proof.
  revert scores. induction post as [|idx post IH]; intros scores Hpost Hpos.
  - exists scores. split; [done|]. split; [done|]. split; [done|].
    intros i. split; [by left | by intros [?|?%elem_of_nil]].
  - destruct (Hpost idx) as (d & Hd & Hx); [left|].
    cbn [score_postings]. rewrite Hd. cbn [mbind option_bind].
    destruct (IH (scores_add scores idx
                    (_calculate_md_score d qt * idf self qt)%R))
      as (scores' & -> & Hpos' & Hnd & Hkeys).
    { intros i Hi. apply Hpost. by right. }
    { by apply scores_add_pos. }
    exists scores'. split; [done|]. split; [done|]. split.
    + intros H. by apply Hnd, scores_add_NoDup.
    + intros i. rewrite Hkeys, elem_of_scores_add_keys, elem_of_cons. tauto.
Qed.

(** The outer loop. *)
Lemma score_tokens_spec self qts scores :
  (∀ qt i, qt ∈ qts → i ∈ postings self qt →
           ∃ d, docs self !! i = Some d
                ∧ (0 < _calculate_md_score d qt * idf self qt)%R) →
  Forall (λ e, (0 < e.2)%R) scores →
  ∃ scores',
    score_tokens self qts scores = Some scores'
    ∧ Forall (λ e, (0 < e.2)%R) scores'
    ∧ (NoDup scores.*1 → NoDup scores'.*1)
    ∧ ∀ i, i ∈ scores'.*1
           ↔ i ∈ scores.*1 ∨ ∃ qt, qt ∈ qts ∧ i ∈ postings self qt.
Proof.
  revert scores. induction qts as [|qt qts IH]; intros scores Hpost Hpos.
  - exists scores. split; [done|]. split; [done|]. split; [done|].
    intros i. split; [by left | by intros [?|(? & ?%elem_of_nil & _)]].
  - cbn [score_tokens].
    destruct (score_postings_spec self qt (postings self qt) scores)
      as (scores1 & Hs1 & Hpos1 & Hnd1 & Hkeys1); [|done|].
    { intros i Hi. apply Hpost; [left | done]. }
    unfold postings in Hs1 at 1. rewrite Hs1. cbn [mbind option_bind].
    destruct (IH scores1) as (scores' & -> & Hpos' & Hnd & Hkeys); [|done|].
    { intros qt' i Hqt' Hi. apply Hpost; [by right | done]. }
    exists scores'. split; [done|]. split; [done|]. split; [by auto|].
    intros i. rewrite Hkeys, Hkeys1. split.
    + intros [[?|?]|(qt' & ? & ?)]; [by left|right..].
      * exists qt. split; [left | done].
      * exists qt'. split; [by right | done].
    + intros [?|(qt' & [->|?]%elem_of_cons & ?)]; [by left; left|by left; right|].
      right. eauto.
Qed.

(** The candidates: every score with the document of its ordinal. *)
Lemma candidates_spec self scores :
  (∀ i, i ∈ scores.*1 → is_Some (docs self !! i)) →
  ∃ cs, candidates self scores = Some cs
        ∧ Forall2 (candidate_of self) scores cs.
Proof.
  induction scores as [|[i s] scores IH]; intros Hdocs.
  - exists []. by split; [|constructor].
  - destruct (Hdocs i) as [d Hd]; [left|].
    destruct IH as (cs & Hcs & Hall).
    { intros j Hj. apply Hdocs. by right. }
    exists ((s, d) :: cs). cbn [candidates]. rewrite Hd, Hcs. split; [done|].
    by constructor.
Qed.

(* ===================================================================== *)
(** ** Sorting and slicing *)
(* ===================================================================== *)

Lemma insert_desc_perm x l : insert_desc x l ≡ₚ x :: l.
Proof.
  induction l as [|y l IH]; cbn [insert_desc]; [done|].
  destruct (Rlt_dec x.1 y.1); [|done].
  rewrite IH. apply Permutation_swap.
Qed.

Lemma sorted_desc_perm l : sorted_desc l ≡ₚ l.
Proof.
  induction l as [|x l IH]; [done|].
  cbn [sorted_desc foldr]. rewrite insert_desc_perm.
  by apply Permutation_skip.
Qed.

Lemma insert_desc_sorted x l :
  StronglySorted desc l → StronglySorted desc (insert_desc x l).
Proof.
  induction 1 as [|y l Hl IH Hy]; cbn [insert_desc].
  - by repeat constructor.
  - destruct (Rlt_dec x.1 y.1) as [Hlt|Hge].
    + constructor; [done|]. rewrite insert_desc_perm.
      constructor; [|done]. unfold desc. lra.
    + constructor; [by constructor|].
      constructor; [unfold desc; lra|].
      eapply Forall_impl; [exact Hy|]. unfold desc. intros z Hz. lra.
Qed.

Lemma sorted_desc_sorted l : StronglySorted desc (sorted_desc l).
Proof.
  induction l as [|x l IH]; [constructor|].
  cbn [sorted_desc foldr]. by apply insert_desc_sorted.
Qed.

#[local] Instance R_eq_dec : EqDecision R := Req_dec_T.

(** The sort is stable: among the pairs of one score, the order is kept. *)
Lemma insert_desc_stable (s : R) x l :
  filter (λ y, y.1 = s) (insert_desc x l) = filter (λ y, y.1 = s) (x :: l).
Proof.
  induction l as [|y l IH]; cbn [insert_desc]; [done|].
  destruct (Rlt_dec x.1 y.1) as [Hlt|Hge]; [|done].
  rewrite filter_cons, IH, !filter_cons.
  destruct (decide (y.1 = s)) as [Hy|Hy], (decide (x.1 = s)) as [Hx|Hx];
    try done.
  rewrite Hx, Hy in Hlt. lra.
Qed.

Lemma sorted_desc_stable (s : R) l :
  filter (λ y, y.1 = s) (sorted_desc l) = filter (λ y, y.1 = s) l.
Proof.
  induction l as [|x l IH]; [done|].
  cbn [sorted_desc foldr]. rewrite insert_desc_stable, !filter_cons.
  fold (sorted_desc l). by rewrite IH.
Qed.

Lemma StronglySorted_take {A} (R : relation A) n l :
  StronglySorted R l → StronglySorted R (take n l).
Proof.
  intros H. rewrite <- (take_drop n l) in H.
  by apply StronglySorted_app_1_l in H.
Qed.

Lemma slice_to_nonneg {A} (l : list A) (k : nat) :
  slice_to l (Z.of_nat k) = take k l.
Proof.
  unfold slice_to. rewrite (proj2 (Z.leb_le _ _)) by lia.
  by rewrite Nat2Z.id.
Qed.

Lemma slice_to_neg {A} (l : list A) (k : Z) :
  (k < 0)%Z → slice_to l k = take (length l - Z.abs_nat k) l.
Proof.
  intros Hk. unfold slice_to. rewrite (proj2 (Z.leb_gt _ _)) by lia.
  by rewrite Zabs2Nat.abs_nat_spec, Z.abs_neq by lia.
Qed.

Lemma slice_to_subseteq {A} (l : list A) (k : Z) : slice_to l k ⊆ l.
Proof. unfold slice_to. case_match; apply subseteq_take. Qed.

(* ===================================================================== *)
(** ** Counting the matching documents *)
(* ===================================================================== *)

Section positions.

Context (P : Doc.t → Prop) `{!∀ d, Decision (P d)}.

Lemma positions_from_length k ds :
  length (positions_from P k ds) = length (filter P ds).
Proof.
  revert k. induction ds as [|d ds IH]; intros k; [done|].
  cbn [positions_from]. rewrite filter_cons, length_app, IH.
  by case_decide.
Qed.

Lemma elem_of_positions_from k ds i :
  i ∈ positions_from P k ds
  ↔ ∃ j d, i = k + j ∧ ds !! j = Some d ∧ P d.
Proof.
  revert k. induction ds as [|d ds IH]; intros k; cbn [positions_from].
  - split; [by intros ?%elem_of_nil | by intros (j & d & _ & ? & _)].
  - rewrite elem_of_app, IH. split.
    + intros [Hi|(j & d' & -> & Hj & Hd')].
      * case_decide as Hd; [|by apply elem_of_nil in Hi].
        apply list_elem_of_singleton in Hi as ->.
        exists 0, d. by rewrite Nat.add_0_r.
      * exists (S j), d'. split; [lia | done].
    + intros ([|j] & d' & -> & Hj & Hd').
      * left. injection Hj as ->. rewrite decide_True by done.
        rewrite Nat.add_0_r. by apply list_elem_of_singleton.
      * right. exists j, d'. split; [lia | done].
Qed.

Lemma positions_from_NoDup k ds : NoDup (positions_from P k ds).
Proof.
  revert k. induction ds as [|d ds IH]; intros k; cbn [positions_from].
  - constructor.
  - apply NoDup_app. split; [|split; [|done]].
    + case_decide; [apply NoDup_singleton | constructor].
    + intros i Hi (j & d' & -> & _)%elem_of_positions_from.
      case_decide; [|by apply elem_of_nil in Hi].
      apply list_elem_of_singleton in Hi. lia.
Qed.

(** A duplicate-free list of the ordinals of the documents that satisfy
    [P] is as long as the list of those documents. *)
Lemma length_ordinals keys ds :
  NoDup keys →
  (∀ i, i ∈ keys ↔ ∃ d, ds !! i = Some d ∧ P d) →
  length keys = length (filter P ds).
Proof.
  intros Hnd Hkeys. rewrite <- (positions_from_length 0).
  apply Permutation_length, NoDup_Permutation;
    [done | apply positions_from_NoDup|].
  intros i. rewrite Hkeys, elem_of_positions_from. split.
  - intros (d & ? & ?). by exists i, d.
  - intros (j & d & -> & ? & ?). by exists d.
Qed.

End positions.

(* ===================================================================== *)
(** ** [ranked]: the sorted candidates *)
(* ===================================================================== *)

(** On an index built by [add], the loops of [search] go through, and their
    result is described by the documents that match the query. *)
Lemma ranked_spec ds query :
  ∃ scores cs,
    ranked (build ds) query = Some (sorted_desc cs)
    ∧ Forall2 (candidate_of (build ds)) scores cs
    ∧ Forall (λ e, (0 < e.2)%R) scores
    ∧ NoDup scores.*1
    ∧ ∀ i, i ∈ scores.*1 ↔ ∃ d, ds !! i = Some d ∧ matches query d.
Proof.
  pose proof (index_members_build ds) as Hm. unfold index_members in Hm.
  destruct (score_tokens_spec (build ds) (q_tokens query) [])
    as (scores & Hscores & Hpos & Hnd & Hkeys); [|constructor|].
  { intros qt i _ (d & Hd & Hin)%Hm. exists d. split; [done|].
    by apply posting_score_pos. }
  assert (∀ i, i ∈ scores.*1 ↔ ∃ d, ds !! i = Some d ∧ matches query d)
    as Hkeys'.
  { intros i. rewrite Hkeys. unfold matches. split.
    - intros [?%elem_of_nil|(qt & Hqt & (d & Hd & Hin)%Hm)]; [done|].
      rewrite build_docs in Hd. exists d. split; [done|].
      apply Exists_exists. eauto.
    - intros (d & Hd & (qt & Hin & Hqt)%Exists_exists). right.
      exists qt. split; [done|]. apply Hm. exists d.
      by rewrite build_docs. }
  destruct (candidates_spec (build ds) scores) as (cs & Hcs & Hall).
  { intros i (d & Hd & _)%Hkeys'. rewrite build_docs. by eexists. }
  exists scores, cs. unfold ranked. rewrite Hscores; cbn [mbind option_bind].
  rewrite Hcs; cbn [mbind option_bind].
  split; [done|]. split; [done|]. split; [done|]. split; [|done].
  apply Hnd. constructor.
Qed.

(** [ranked] has one entry for every matching document. *)
Lemma ranked_length ds query :
  ∃ r, ranked (build ds) query = Some r
       ∧ length r = length (filter (matches query) ds).
Proof.
  destruct (ranked_spec ds query) as (scores & cs & Hr & Hall & _ & Hnd & Hk).
  exists (sorted_desc cs). split; [done|].
  rewrite (Permutation_length (sorted_desc_perm cs)).
  rewrite <- (Forall2_length _ _ _ Hall), <- (length_fmap fst scores).
  by apply length_ordinals.
Qed.

(** Every entry of [ranked] has a positive score and a matching document. *)
Lemma ranked_entries ds query :
  ∃ r, ranked (build ds) query = Some r
       ∧ StronglySorted desc r
       ∧ ∀ s d, (s, d) ∈ r → (0 < s)%R ∧ matches query d.
Proof.
  destruct (ranked_spec ds query) as (scores & cs & Hr & Hall & Hpos & _ & Hk).
  exists (sorted_desc cs). split; [done|]. split; [apply sorted_desc_sorted|].
  intros s d. rewrite sorted_desc_perm.
  intros (n & Hn)%list_elem_of_lookup.
  destruct (Forall2_lookup_r _ _ _ _ _ Hall Hn) as ([i s'] & Hi & Hs & Hd).
  cbn in Hs, Hd. subst s'. split.
  - rewrite Forall_forall in Hpos.
    apply (Hpos (i, s)). apply list_elem_of_lookup. eauto.
  - assert (i ∈ scores.*1) as (d' & Hd' & Hmatch)%Hk.
    { apply list_elem_of_fmap. exists (i, s). split; [done|].
      apply list_elem_of_lookup. eauto. }
    rewrite build_docs in Hd. congruence.
Qed.

(* ===================================================================== *)
(** ** [search]: the results *)
(* ===================================================================== *)

Lemma search_unfold self query k r :
  ranked self query = Some r → search self query k = Some (slice_to r k).
Proof. intros Hr. unfold search. by rewrite Hr. Qed.

(** C3: on every index built by [add] calls, for every query and every [k],
    [search] returns pairs whose scores are all strictly positive, and a
    document none of whose haystack tokens is a query token is in no
    returned pair. *)
Theorem search_scores_positive (ds : list Doc.t) (query : str) (k : Z) :
  ∃ res,
    search (build ds) query k = Some res
    ∧ (∀ s d, (s, d) ∈ res → (0 < s)%R)
    ∧ (∀ d, (∀ t, t ∈ haystack_tokens d → t ∉ q_tokens query) →
            ∀ s, (s, d) ∉ res).
Proof.
  destruct (ranked_entries ds query) as (r & Hr & _ & Hentries).
  exists (slice_to r k). split; [by apply search_unfold|]. split.
  - intros s d Hin%slice_to_subseteq. by apply Hentries in Hin as [Hs _].
  - intros d Hnone s Hin%slice_to_subseteq.
    apply Hentries in Hin as [_ (t & Ht & Hq)%Exists_exists].
    by apply (Hnone t).
Qed.

(** C6: on every index built by [add] calls, for every query and every
    non-negative [k], [search] returns at most [k] pairs, in non-increasing
    order of score; for [k = 0] it returns the empty list. *)
Theorem search_at_most_k_sorted (ds : list Doc.t) (query : str) (k : nat) :
  ∃ res,
    search (build ds) query (Z.of_nat k) = Some res
    ∧ length res ≤ k
    ∧ StronglySorted desc res
    ∧ (k = 0 → res = []).
Proof.
  destruct (ranked_entries ds query) as (r & Hr & Hsorted & _).
  exists (take k r). rewrite (search_unfold _ _ _ _ Hr), slice_to_nonneg.
  split; [done|]. split; [rewrite length_take; lia|].
  split; [by apply StronglySorted_take|]. by intros ->.
Qed.

(** C9: for a negative [k], [search] neither rejects [k] nor returns the
    empty list as such: it returns [ranked], the sorted list with one entry
    for every matching document, without its last [|k|] entries. *)
Theorem search_negative_k (ds : list Doc.t) (query : str) (k : Z) :
  (k < 0)%Z →
  ∃ r,
    ranked (build ds) query = Some r
    ∧ length r = length (filter (matches query) ds)
    ∧ search (build ds) query k = Some (take (length r - Z.abs_nat k) r).
Proof.
  intros Hk. destruct (ranked_length ds query) as (r & Hr & Hlen).
  exists r. split; [done|]. split; [done|].
  by rewrite (search_unfold _ _ _ _ Hr), slice_to_neg.
Qed.

Lemma search_negative_k_witness :
  (-1 < 0)%Z
  ∧ ∃ r,
      ranked (build scenario_docs) (py "contentA tagY") = Some r
      ∧ length r
        = length (filter (matches (py "contentA tagY")) scenario_docs)
      ∧ search (build scenario_docs) (py "contentA tagY") (-1)
        = Some (take (length r - Z.abs_nat (-1)) r).
Proof.
  split; [lia|]. apply (search_negative_k scenario_docs). lia.
Defined.

(** With two matching documents, [k = -1] leaves one result. *)
Example search_minus_one_nonempty :
  ∃ res,
    search (build scenario_docs) (py "contentA tagY") (-1) = Some res
    ∧ length res = 1.
Proof.
  destruct (ranked_length scenario_docs (py "contentA tagY"))
    as (r & Hr & Hlen).
  exists (slice_to r (-1)). split; [by apply search_unfold|].
  rewrite slice_to_neg, length_take, Hlen by lia.
  reflexivity.
Qed.

(** C8: the title boost is a function of the body length alone; it is
    strictly larger for an empty body than for a non-empty body below the
    short-page threshold, and strictly larger for that than for a longer
    body; so it never increases with the body length. *)
Theorem title_boost_tiers :
  (∀ d1 d2,
     length (Doc.content d1) = length (Doc.content d2) →
     _title_boost_for d1 = _title_boost_for d2)
  ∧ (∀ d_empty d_short d_long,
       length (Doc.content d_empty) = 0 →
       0 < length (Doc.content d_short) < _SHORT_PAGE_THRESHOLD →
       _SHORT_PAGE_THRESHOLD ≤ length (Doc.content d_long) →
       _title_boost_for d_long < _title_boost_for d_short
       ∧ _title_boost_for d_short < _title_boost_for d_empty)
  ∧ (∀ d1 d2,
       length (Doc.content d1) ≤ length (Doc.content d2) →
       _title_boost_for d2 ≤ _title_boost_for d1).
Proof.
  unfold _title_boost_for, _TITLE_BOOST_EMPTY, _TITLE_BOOST_SHORT,
    _TITLE_BOOST_LONG, _SHORT_PAGE_THRESHOLD.
  cbv zeta. split; [|split].
  - by intros d1 d2 ->.
  - intros de dm dl He Hm Hl.
    repeat case_match;
      rewrite ?Nat.eqb_eq, ?Nat.eqb_neq, ?Nat.ltb_lt, ?Nat.ltb_ge in *; lia.
  - intros d1 d2 Hle.
    repeat case_match;
      rewrite ?Nat.eqb_eq, ?Nat.eqb_neq, ?Nat.ltb_lt, ?Nat.ltb_ge in *; lia.
Qed.

(** The ranking scenario of the specification: the query [contentA] returns
    the first document alone.  The token has two postings for that document,
    so the loop adds its contribution, term frequency 2 times the inverse
    document frequency, twice. *)
Example scenario_search :
  let d1 := Doc.make (py "u1") (py "Intro") (py "contentA contentA tagX") (py "Intro") in
  let idf := (ln (3 / 2) + 1)%R in
  search (build scenario_docs) (py "contentA") 8
  = Some [((0 + 2 * idf + 2 * idf)%R, d1)].
Proof.
  cbv zeta. unfold search, ranked.
  change (q_tokens (py "contentA")) with [py "contenta"].
  cbn [score_tokens].
  replace (doc_indices (build scenario_docs) !! py "contenta")
    with (Some [0; 0]) by (vm_compute; reflexivity).
  cbn [default from_option Datatypes.id score_postings].
  rewrite build_docs. cbn [scenario_docs lookup list_lookup mbind option_bind].
  unfold _calculate_md_score, idf, doc_count. rewrite build_docs.
  replace (doc_frequency (build scenario_docs) !! py "contenta")
    with (Some 1) by (vm_compute; reflexivity).
  match goal with |- context [term_frequency ?d ?t] =>
    change (term_frequency d t) with 2 end.
  cbn [scores_add candidates mbind option_bind scenario_docs length Nat.max
       Nat.add default from_option Datatypes.id].
  rewrite decide_True by done.
  cbn [candidates]. rewrite build_docs.
  cbn [scenario_docs lookup list_lookup mbind option_bind sorted_desc foldr
       insert_desc].
  replace (INR 2) with 2%R by (cbn [INR]; lra).
  replace (INR 3) with 3%R by (cbn [INR]; lra).
  reflexivity.
Qed.

(* ===================================================================== *)
(** ** One document, one occurrence *)
(* ===================================================================== *)

Lemma occurrences_app t l1 l2 :
  occurrences t (l1 ++ l2) = occurrences t l1 + occurrences t l2.
Proof. unfold occurrences. by rewrite filter_app, length_app. Qed.

Lemma occurrences_uncounted p s t :
  Str.count s t = 0 → occurrences t (Str.runs p s) = 0.
Proof. pose proof (occurrences_runs_count p s t). lia. Qed.

Lemma occurrences_field_uncounted parts t :
  (∀ x, x ∈ parts → Str.count (Str.lower x) t = 0) →
  occurrences t (field_tokens parts) = 0.
Proof.
  intros Hzero. apply occurrences_absent.
  intros (x & Hx & Ht%count_token)%elem_of_field_tokens.
  rewrite Hzero in Ht by done. lia.
Qed.

(** C4: in the index of one document whose lowercased content has the token
    [q], counted exactly once, while the index title, the headers, the code
    blocks and the link texts do not contain [q], the query [q] with [k = 1]
    returns that document with score exactly [1]; the inverse document
    frequency there is [ln((N + 1) / (1 + documentFrequency[q])) + 1] with
    [N = 1] and [documentFrequency[q] = 1], that is [ln(2/2) + 1]. *)
Theorem single_document_score (d : Doc.t) (query q : str) :
  q_tokens query = [q] →
  q ∈ Re.TOKEN_findall (Str.lower (Doc.content d)) →
  Str.count (Str.lower (Doc.content d)) q = 1 →
  Str.count (Str.lower (Doc.index_title d)) q = 0 →
  (∀ h, h ∈ headers_of d → Str.count (Str.lower h) q = 0) →
  (∀ c, c ∈ code_blocks_of d → Str.count (Str.lower c) q = 0) →
  (∀ l, l ∈ link_text_of d → Str.count (Str.lower l) q = 0) →
  doc_count (build [d]) = 1
  ∧ frequency (build [d]) q = 1
  ∧ idf (build [d]) q = (ln (2 / 2) + 1)%R
  ∧ search (build [d]) query 1 = Some [(1%R, d)].
Proof.
  intros Hquery Htoken Hcontent Htitle Hheaders Hcode Hlinks.
  (* the token occurs once among the tokens of the haystack *)
  assert (occurrences q (haystack_tokens d) = 1) as Hocc.
  { rewrite haystack_tokens_fields, !occurrences_app.
    unfold Re.TOKEN_findall at 1.
    rewrite occurrences_uncounted, !occurrences_field_uncounted by done.
    pose proof (occurrences_runs_count Char.is_word
                  (Str.lower (Doc.content d)) q) as Hle.
    rewrite Hcontent in Hle. apply occurrences_present in Htoken.
    unfold Re.TOKEN_findall in *. lia. }
  assert (q ∈ haystack_tokens d) as Hin.
  { destruct (decide (q ∈ haystack_tokens d)) as [|Hnot]; [done|].
    rewrite occurrences_absent in Hocc by done. lia. }
  (* the index *)
  change (build [d]) with (add init d).
  assert (doc_indices (add init d) !! q = Some [0]) as Hpostings.
  { rewrite add_indices, decide_True, Hocc by done. done. }
  assert (doc_frequency (add init d) !! q = Some 1) as Hfreq.
  { rewrite add_frequency, decide_True by done. done. }
  assert (idf (add init d) q = 1%R) as Hidf.
  { unfold idf, doc_count. rewrite Hfreq. cbn.
    replace ((1 + 1) / (1 + 1))%R with 1%R by lra. rewrite ln_1. lra. }
  (* the term frequency *)
  assert (term_frequency d q = 1) as Htf.
  { unfold term_frequency. cbv zeta.
    rewrite Hcontent, Htitle, !weighted_count_zero by done. done. }
  split; [done|]. split; [by unfold frequency; rewrite Hfreq|].
  split.
  { rewrite Hidf. replace (2 / 2)%R with 1%R by lra. rewrite ln_1. lra. }
  (* the loops of [search] *)
  unfold search, ranked. rewrite Hquery. cbn [score_tokens].
  rewrite Hpostings. cbn [default from_option Datatypes.id score_postings].
  rewrite add_docs. cbn [docs init app lookup list_lookup mbind option_bind].
  unfold _calculate_md_score. rewrite Htf, Hidf.
  cbn [scores_add candidates docs lookup list_lookup mbind option_bind app].
  cbn [sorted_desc foldr insert_desc].
  replace (0 + INR 1 * 1)%R with 1%R by (cbn [INR]; lra).
  reflexivity.
Qed.

Lemma single_document_score_witness :
  let d := Doc.make (py "u") (py "Guide") (py "Say hello to all") (py "Guide") in
  q_tokens (py "Hello") = [py "hello"]
  ∧ py "hello" ∈ Re.TOKEN_findall (Str.lower (Doc.content d))
  ∧ Str.count (Str.lower (Doc.content d)) (py "hello") = 1
  ∧ Str.count (Str.lower (Doc.index_title d)) (py "hello") = 0
  ∧ (doc_count (build [d]) = 1
     ∧ frequency (build [d]) (py "hello") = 1
     ∧ idf (build [d]) (py "hello") = (ln (2 / 2) + 1)%R
     ∧ search (build [d]) (py "Hello") 1 = Some [(1%R, d)]).
Proof.
  cbv zeta.
  assert (py "hello"
          ∈ Re.TOKEN_findall
              (Str.lower (py "Say hello to all"))) as Htoken.
  { refine (bool_decide_unpack _ _). vm_compute. exact I. }
  split; [reflexivity|]. split; [exact Htoken|].
  split; [reflexivity|]. split; [reflexivity|].
  apply single_document_score; try reflexivity; try exact Htoken.
  - intros h Hh. vm_compute in Hh. inversion Hh.
  - intros c Hc. vm_compute in Hc. inversion Hc.
  - intros l Hl. vm_compute in Hl. inversion Hl.
Defined.

(** That [q] is a token of the content is needed: the content [category]
    contains [cat] once as a substring, but [cat] is no token of it, has no
    postings, and the search returns nothing. *)
Example substring_without_token :
  let d := Doc.make (py "u") (py "Guide") (py "category") (py "Guide") in
  Str.count (Str.lower (Doc.content d)) (py "cat") = 1
  ∧ search (build [d]) (py "cat") 1 = Some [].
Proof. cbv zeta. split; reflexivity. Qed.

(* ===================================================================== *)
(** ** [make_snippet] *)
(* ===================================================================== *)

Lemma make_snippet_content p display_title max_chars :
  Page.content p ≠ [] →
  make_snippet (Some p) display_title max_chars
  = Snippet.truncate (snippet_text (Page.content p) display_title) max_chars.
Proof.
  intros Hne. unfold make_snippet, snippet_text, Snippet.of_lines.
  by destruct (Page.content p).
Qed.

(** The scenario of the specification: a long sentence and
    [max_chars = 10].  Nine characters are kept and the three of the marker
    follow. *)
Example snippet_max_chars_10 :
  let page :=
    Some (Page.make [] []
            (py "This single sentence is much longer than ten characters.")) in
  make_snippet page (py "Title") 10 = py "This sing..."
  ∧ length (make_snippet page (py "Title") 10) = 12.
Proof. split; reflexivity. Qed.

(** C2, as stated, fails: a page with an empty body makes [make_snippet]
    return the display title as it is, here 15 characters for
    [max_chars = 5], and without any marker. *)
Lemma snippet_length_counterexample :
  let page := Some (Page.make (py "u") (py "t") []) in
  let result := make_snippet page (py "Getting started") 5 in
  result = py "Getting started"
  ∧ ¬ (Z.of_nat (length result) <= 5)%Z
  ∧ Str.endswith Snippet.ellipsis result = false.
Proof.
  cbv zeta. split; [reflexivity|]. split; [|reflexivity].
  vm_compute. by intros H.
Qed.

(** C2, amended: without a page, or with an empty body, the display title
    is returned as it is; otherwise the collapsed text is returned whole
    when it has at most [max_chars] characters, so that its length is at
    most [max_chars], and when it is longer, so that truncation is applied,
    the result ends with the ellipsis marker. *)
Theorem make_snippet_cases (page : option Page.t) (display_title : str)
    (max_chars : Z) :
  let result := make_snippet page display_title max_chars in
  match page with
  | None => result = display_title
  | Some p =>
      if decide (Page.content p = []) then result = display_title
      else
        let text := snippet_text (Page.content p) display_title in
        if decide (Z.of_nat (length text) <= max_chars)%Z
        then result = text ∧ (Z.of_nat (length result) <= max_chars)%Z
        else Str.endswith Snippet.ellipsis result = true
  end.
Proof.
  cbv zeta. destruct page as [p|]; [|done].
  case_decide as Hempty.
  { unfold make_snippet. by rewrite Hempty. }
  rewrite make_snippet_content by done. unfold Snippet.truncate.
  case_decide as Hlen.
  - rewrite (proj2 (Z.ltb_ge _ _)) by lia. done.
  - rewrite (proj2 (Z.ltb_lt _ _)) by lia.
    unfold Str.endswith. rewrite rev_app_distr. apply startswith_app.
Qed.

(** C7, as stated, fails.  The first line of each body is the display
    title; in the first the next line starts with the same word, in the
    second nothing follows and the display title is the fallback: both
    snippets start with the title line. *)
Lemma snippet_title_prefix_counterexample :
  let title := py "Intro" in
  let body1 := py "Intro" ++ LF :: py "Intro continues here." in
  let body2 := py "Intro" in
  head (Snippet.lines_of body1) = Some title
  ∧ make_snippet (Some (Page.make [] [] body1)) title 300
    = py "Intro continues here."
  ∧ Str.startswith title
      (make_snippet (Some (Page.make [] [] body1)) title 300) = true
  ∧ head (Snippet.lines_of body2) = Some title
  ∧ make_snippet (Some (Page.make [] [] body2)) title 300 = py "Intro"
  ∧ Str.startswith title
      (make_snippet (Some (Page.make [] [] body2)) title 300) = true.
Proof. cbv zeta. repeat split; reflexivity. Qed.

(** C7, amended: when the first non-empty trimmed line of the body equals
    the display title up to whitespace and case, that line is dropped: the
    snippet is the one computed from the lines after it alone (the display
    title being the fallback when they hold no paragraph). *)
Theorem snippet_skips_title_line (p : Page.t) (display_title first : str)
    (rest : list str) (max_chars : Z) :
  Snippet.lines_of (Page.content p) = first :: rest →
  Str.lower (normalize first) = Str.lower (normalize display_title) →
  make_snippet (Some p) display_title max_chars
  = Snippet.of_lines rest display_title max_chars.
Proof.
  intros Hlines Htitle. unfold make_snippet.
  destruct (Page.content p) as [|c content] eqn:Hcontent; [done|].
  rewrite Hlines. unfold Snippet.drop_title_line, Snippet.is_title_line.
  by rewrite Htitle, startswith_refl, orb_true_r.
Qed.

Lemma snippet_skips_title_line_witness :
  let p := Page.make [] []
             (py "Intro" ++ LF :: py "Intro continues here.") in
  Snippet.lines_of (Page.content p)
  = [py "Intro"; py "Intro continues here."]
  ∧ Str.lower (normalize (py "Intro")) = Str.lower (normalize (py " INTRO "))
  ∧ make_snippet (Some p) (py " INTRO ") 300
    = Snippet.of_lines [py "Intro continues here."] (py " INTRO ") 300.
Proof.
  cbv zeta. split; [reflexivity|]. split; [reflexivity|].
  apply (snippet_skips_title_line _ _ (py "Intro")); reflexivity.
Defined.

(* ===================================================================== *)
(** ** URLs *)
(* ===================================================================== *)

Lemma startswith_app_l p a b :
  Str.startswith p a = true → Str.startswith p (a ++ b) = true.
Proof.
  intros [post ->]%startswith_prefix. rewrite <- app_assoc.
  apply startswith_app.
Qed.

Lemma is_url_allowed_base url : is_url_allowed (URL_BASE ++ url) = true.
Proof.
  unfold is_url_allowed.
  change (URL_BASE ++ url) with ("h"%char :: tail URL_BASE ++ url).
  cbn [existsb ALLOWED_DOMAINS].
  change ("h"%char :: tail URL_BASE ++ url) with (URL_BASE ++ url).
  change (py "https://aws.github.io/bedrock-agentcore-starter-toolkit")
    with URL_BASE.
  by rewrite startswith_app.
Qed.

Lemma normalize_url_Some url u :
  normalize_url url = Some u →
  is_url_allowed u = true
  ∧ (u = url ∨ u = URL_BASE ++ url)
  ∧ normalize_url u = Some u.
Proof.
  unfold normalize_url.
  destruct (Str.startswith (py "http://") url
            || Str.startswith (py "https://") url) eqn:Habs; cbv zeta.
  - destruct (is_url_allowed url) eqn:Hok; [|done]. intros Hu.
    assert (u = url) as -> by congruence.
    split; [done|]. split; [by left|]. by rewrite Habs, Hok.
  - rewrite is_url_allowed_base. intros Hu.
    assert (u = URL_BASE ++ url) as -> by congruence.
    split; [apply is_url_allowed_base|]. split; [by right|].
    assert (Str.startswith (py "https://") (URL_BASE ++ url) = true) as ->
      by (by apply startswith_app_l).
    by rewrite orb_true_r, is_url_allowed_base.
Qed.

(** X1: what [normalize_url] returns is an allowed URL, it is the argument
    itself or the argument behind the base URL, and [normalize_url] returns
    it unchanged when applied to it again. *)
Theorem normalize_url_result (url u : str) :
  normalize_url url = Some u →
  is_url_allowed u = true
  ∧ (u = url ∨ u = URL_BASE ++ url)
  ∧ normalize_url u = Some u.
Proof. apply normalize_url_Some. Qed.

Lemma normalize_url_result_witness :
  normalize_url (py "/getting-started/")
  = Some (py "https://aws.github.io/bedrock-agentcore-starter-toolkit/getting-started/")
  ∧ (is_url_allowed
       (py "https://aws.github.io/bedrock-agentcore-starter-toolkit/getting-started/")
     = true
     ∧ (py "https://aws.github.io/bedrock-agentcore-starter-toolkit/getting-started/"
        = py "/getting-started/"
        ∨ py "https://aws.github.io/bedrock-agentcore-starter-toolkit/getting-started/"
          = URL_BASE ++ py "/getting-started/")
     ∧ normalize_url
         (py "https://aws.github.io/bedrock-agentcore-starter-toolkit/getting-started/")
       = Some (py "https://aws.github.io/bedrock-agentcore-starter-toolkit/getting-started/")).
Proof.
  split; [reflexivity|]. apply normalize_url_result. reflexivity.
Defined.

(** X2: a URL of the plain [http://] scheme is never accepted: every allowed
    prefix is an [https://] one. *)
Theorem normalize_url_rejects_http (url : str) :
  Str.startswith (py "http://") url = true → normalize_url url = None.
Proof.
  intros Hhttp. unfold normalize_url. rewrite Hhttp. cbn [orb].
  apply startswith_prefix in Hhttp as [rest ->]. reflexivity.
Qed.

Lemma normalize_url_rejects_http_witness :
  Str.startswith (py "http://") (py "http://docs.aws.amazon.com/x") = true
  ∧ normalize_url (py "http://docs.aws.amazon.com/x") = None.
Proof.
  split; [reflexivity|]. apply normalize_url_rejects_http. reflexivity.
Defined.

(** X3: a string that starts with neither [http://] nor [https://] is taken
    as a path under the base URL and always accepted, whatever it holds:
    the result is the base URL with the string appended as it is. *)
Theorem normalize_url_relative (url : str) :
  Str.startswith (py "http://") url = false →
  Str.startswith (py "https://") url = false →
  normalize_url url = Some (URL_BASE ++ url).
Proof.
  intros H1 H2. unfold normalize_url. rewrite H1, H2. cbn [orb].
  by rewrite is_url_allowed_base.
Qed.

Lemma normalize_url_relative_witness :
  Str.startswith (py "http://") (py ".evil.example/x") = false
  ∧ Str.startswith (py "https://") (py ".evil.example/x") = false
  ∧ normalize_url (py ".evil.example/x")
    = Some (URL_BASE ++ py ".evil.example/x").
Proof.
  split; [reflexivity|]. split; [reflexivity|].
  apply normalize_url_relative; reflexivity.
Defined.

(* ===================================================================== *)
(** ** Tokens *)
(* ===================================================================== *)

Section runs_more.

Variable p : ascii → bool.

(** The first run of a text that starts with a [p]-character, and what is
    left after it. *)
Lemma runs_first c s :
  p c = true →
  ∃ t post,
    Str.runs p (c :: s) = (c :: t) :: Str.runs p post
    ∧ s = t ++ post
    ∧ Forall (λ x, p x = true) t.
Proof.
  revert c. induction s as [|c' s IH]; intros c Hc.
  - exists [], []. by rewrite runs_singleton.
  - destruct (p c') eqn:Hc'.
    + destruct (IH c' Hc') as (t & post & Hr & -> & Hall).
      exists (c' :: t), post.
      rewrite (runs_cons_true_go p _ _ _ _ _ Hc Hc' Hr).
      split; [done|]. split; [done|]. by constructor.
    + exists [], (c' :: s). by rewrite runs_cons_true_stop.
Qed.

Lemma runs_Forall s :
  Forall (λ t, t ≠ [] ∧ Forall (λ x, p x = true) t) (Str.runs p s).
Proof.
  remember (length s) as n eqn:Hn. revert s Hn.
  induction n as [n IH] using lt_wf_ind. intros s ->.
  destruct s as [|c s]; [constructor|].
  destruct (p c) eqn:Hc.
  - destruct (runs_first c s Hc) as (t & post & -> & -> & Hall).
    constructor; [split; [done | by constructor]|].
    eapply IH; [|done]. cbn [length]. rewrite length_app. lia.
  - rewrite runs_cons_false by done.
    eapply IH; [|done]. cbn [length]. lia.
Qed.

(** A non-empty text of [p]-characters is its own single run. *)
Lemma runs_all t :
  t ≠ [] → Forall (λ x, p x = true) t → Str.runs p t = [t].
Proof.
  induction t as [|c [|c' t] IH]; [done| |]; intros _ Hall.
  - apply Forall_cons in Hall as [Hc _]. by apply runs_singleton.
  - apply Forall_cons in Hall as [Hc Hall].
    pose proof Hall as [Hc' _]%Forall_cons.
    apply (runs_cons_true_go p); [done..|]. by apply IH.
Qed.


End runs_more.


Lemma lower_char_idemp c : Char.lower (Char.lower c) = Char.lower c.
Proof. destruct c as [[] [] [] [] [] [] [] []]; reflexivity. Qed.

Lemma lower_word_char c :
  Char.is_word c = true →
  Char.is_lower (Char.lower c) || Char.is_digit (Char.lower c)
  || Char.is_code 95 (Char.lower c) = true.
Proof. destruct c as [[] [] [] [] [] [] [] []]; done. Qed.

Lemma lower_idemp s : Str.lower (Str.lower s) = Str.lower s.
Proof.
  unfold Str.lower. rewrite map_map. apply map_ext, lower_char_idemp.
Qed.


(** X4: every token is a non-empty string of letters, digits and
    underscores, and every token of a query is a non-empty string of
    lowercase letters, digits and underscores. *)
Theorem tokens_shape (s : str) :
  Forall (λ t, t ≠ [] ∧ Forall (λ c, Char.is_word c = true) t)
         (Re.TOKEN_findall s)
  ∧ Forall (λ t, t ≠ []
                 ∧ Forall (λ c, Char.is_lower c || Char.is_digit c
                                || Char.is_code 95 c = true) t)
           (q_tokens s).
Proof.
  split; [apply runs_Forall|].
  unfold q_tokens. apply Forall_fmap.
  eapply Forall_impl; [apply (runs_Forall Char.is_word)|].
  intros t [Hne Hall]. cbn. split; [by destruct t|].
  unfold Str.lower. apply Forall_fmap.
  eapply Forall_impl; [exact Hall|]. intros c Hc. by apply lower_word_char.
Qed.

(** X5: tokenizing is stable under joining: the tokens of the tokens of a
    text, joined by blanks, are the tokens of the text. *)
Theorem tokens_join_roundtrip (s : str) :
  Re.TOKEN_findall (Str.join (py " ") (Re.TOKEN_findall s))
  = Re.TOKEN_findall s.
Proof.
  rewrite tokens_join_blank.
  pose proof (runs_Forall Char.is_word s) as Hall.
  unfold Re.TOKEN_findall at 2 3.
  induction Hall as [|t ts [Hne Ht] _ IH]; [done|].
  cbn [map concat]. unfold Re.TOKEN_findall at 1.
  by rewrite runs_all, IH.
Qed.



(* ===================================================================== *)
(** ** The inverted index, once more *)
(* ===================================================================== *)

Lemma ordinal_count_app i l1 l2 :
  ordinal_count i (l1 ++ l2) = ordinal_count i l1 + ordinal_count i l2.
Proof. unfold ordinal_count. by rewrite filter_app, length_app. Qed.

Lemma ordinal_count_replicate i n j :
  ordinal_count i (replicate n j) = if decide (j = i) then n else 0.
Proof.
  unfold ordinal_count. induction n as [|n IH]; cbn [replicate].
  - by case_decide.
  - rewrite filter_cons. case_decide; cbn [length]; [by rewrite IH|done].
Qed.

Lemma ordinal_count_absent i l : i ∉ l → ordinal_count i l = 0.
Proof.
  unfold ordinal_count. induction l as [|j l IH]; [done|].
  rewrite not_elem_of_cons, filter_cons. intros [Hne Hnot].
  rewrite decide_False by done. auto.
Qed.

Lemma ordinal_count_pos i l : 0 < ordinal_count i l → i ∈ l.
Proof.
  intros Hpos. destruct (decide (i ∈ l)) as [|Hnot]; [done|].
  rewrite ordinal_count_absent in Hpos by done. lia.
Qed.

Lemma postings_count_eq ds t i :
  ordinal_count i (postings (build ds) t)
  = match ds !! i with
    | Some d => occurrences t (haystack_tokens d)
    | None => 0
    end.
Proof.
  induction ds as [|d ds IH] using rev_ind.
  - by rewrite lookup_nil.
  - rewrite build_snoc, add_postings, ordinal_count_app,
      ordinal_count_replicate, build_docs, IH.
    destruct (decide (length ds = i)) as [<-|Hne].
    + rewrite lookup_ge_None_2, list_lookup_middle by done. done.
    + destruct (decide (i < length ds)) as [Hlt|Hge].
      * rewrite lookup_app_l by done. lia.
      * rewrite !lookup_ge_None_2; [done| |lia].
        rewrite length_app. cbn [length]. lia.
Qed.

(** X7: the postings of a token hold the ordinal of a document as many
    times as the token occurs in the document's haystack, and no other
    ordinal: the ordinal of a document is among the postings exactly when the
    token is one of the haystack's. *)
Theorem postings_count (ds : list Doc.t) (t : str) (i : nat) :
  ordinal_count i (postings (build ds) t)
  = match ds !! i with
    | Some d => occurrences t (haystack_tokens d)
    | None => 0
    end
  ∧ (i ∈ postings (build ds) t
     ↔ ∃ d, ds !! i = Some d ∧ t ∈ haystack_tokens d).
Proof.
  split; [apply postings_count_eq|].
  - pose proof (index_members_build ds t i) as Hm.
    by rewrite build_docs in Hm.
Qed.

Lemma frequency_count ds t :
  frequency (build ds) t
  = length (filter (λ d, t ∈ haystack_tokens d) ds).
Proof.
  induction ds as [|d ds IH] using rev_ind; [done|].
  rewrite build_snoc, filter_app, length_app, <- IH.
  unfold frequency at 1. rewrite add_frequency, filter_cons, filter_nil.
  case_decide; cbn; [done|]. unfold frequency. lia.
Qed.

Lemma frequency_keys ds t :
  is_Some (doc_frequency (build ds) !! t)
  ↔ is_Some (doc_indices (build ds) !! t).
Proof.
  induction ds as [|d ds IH] using rev_ind.
  - cbn. by rewrite !lookup_empty.
  - rewrite build_snoc, add_frequency, add_indices.
    case_decide; [|done]. split; by eexists.
Qed.

(** X8: the document frequency of a token is the number of stored documents
    whose haystack has the token; a token has a frequency entry exactly when
    it has postings, and then the frequency is at least one. *)
Theorem document_frequency_counts (ds : list Doc.t) (t : str) :
  frequency (build ds) t
  = length (filter (λ d, t ∈ haystack_tokens d) ds)
  ∧ (is_Some (doc_frequency (build ds) !! t)
     ↔ is_Some (doc_indices (build ds) !! t))
  ∧ (is_Some (doc_frequency (build ds) !! t) → 1 ≤ frequency (build ds) t).
Proof.
  split; [apply frequency_count|]. split; [apply frequency_keys|].
  induction ds as [|d ds IH] using rev_ind.
  - cbn. rewrite lookup_empty. by intros [? ?].
  - rewrite build_snoc. unfold frequency. rewrite add_frequency.
    case_decide; cbn; [lia|]. exact IH.
Qed.

(** X9: the inverse document frequency of any token lies between [1] and
    [ln(N + 1) + 1], the value for a token that no document has. *)
Theorem idf_range (ds : list Doc.t) (t : str) :
  (1 <= idf (build ds) t
   <= ln (INR (doc_count (build ds) + 1)) + 1)%R
  ∧ (doc_frequency (build ds) !! t = None →
     idf (build ds) t = (ln (INR (doc_count (build ds) + 1)) + 1)%R).
Proof.
  split; [split; [apply idf_ge_1|]|].
  - unfold idf. cbv zeta.
    set (N := doc_count (build ds)).
    set (df := default 0 (doc_frequency (build ds) !! t)).
    assert (0 < INR (1 + df))%R as Hpos by (apply lt_0_INR; lia).
    assert (1 <= INR (1 + df))%R as Hone.
    { change 1%R with (INR 1). apply le_INR. lia. }
    assert (0 < INR (N + 1))%R as HN by (apply lt_0_INR; lia).
    assert (INR (N + 1) / INR (1 + df) <= INR (N + 1))%R as Hle.
    { apply (Rmult_le_reg_r (INR (1 + df))); [done|].
      unfold Rdiv. rewrite Rmult_assoc, Rinv_l by lra. nra. }
    assert (0 < INR (N + 1) / INR (1 + df))%R as Hq.
    { apply Rdiv_lt_0_compat; done. }
    destruct Hle as [Hlt|Heq].
    + apply ln_increasing in Hlt; [lra | done].
    + rewrite Heq. lra.
  - intros Hnone. unfold idf. cbv zeta. rewrite Hnone. cbn.
    by rewrite Rdiv_1_r.
Qed.

(* ===================================================================== *)
(** ** [search], once more *)
(* ===================================================================== *)

Lemma slice_to_nil {A} (k : Z) : slice_to (@nil A) k = [].
Proof. unfold slice_to. case_match; apply take_nil. Qed.

Lemma score_tokens_init qts scores :
  score_tokens init qts scores = Some scores.
Proof.
  induction qts as [|qt qts IH]; [done|].
  cbn [score_tokens doc_indices init]. rewrite lookup_empty.
  cbn [default from_option Datatypes.id score_postings mbind option_bind].
  exact IH.
Qed.

(** X10: a query without a token (the empty query, or punctuation and
    blanks only) finds nothing on any index, and no query finds anything on
    the empty index; in both cases [search] returns the empty list without
    raising. *)
Theorem search_nothing :
  (∀ self query k,
     Re.TOKEN_findall query = [] → search self query k = Some [])
  ∧ (∀ query k, search init query k = Some []).
Proof.
  split.
  - intros self query k Hq. unfold search, ranked, q_tokens. rewrite Hq.
    cbn. by rewrite slice_to_nil.
  - intros query k. unfold search, ranked.
    rewrite score_tokens_init. cbn. by rewrite slice_to_nil.
Qed.

(** X11: with [k] at least the number of documents, [search] returns every
    matching document: nothing that matches is lost. *)
Theorem search_complete (ds : list Doc.t) (query : str) (k : nat) :
  length ds ≤ k →
  ∃ res,
    search (build ds) query (Z.of_nat k) = Some res
    ∧ length res = length (filter (matches query) ds)
    ∧ ∀ d, d ∈ ds → matches query d → ∃ s, (s, d) ∈ res.
Proof.
  intros Hk.
  destruct (ranked_spec ds query) as (scores & cs & Hr & Hall & _ & Hnd & Hkeys).
  destruct (ranked_length ds query) as (r & Hr' & Hlen).
  assert (r = sorted_desc cs) as -> by congruence.
  exists (sorted_desc cs).
  rewrite (search_unfold _ _ _ _ Hr), slice_to_nonneg.
  rewrite take_ge.
  2:{ rewrite Hlen. etrans; [apply length_filter | done]. }
  split; [done|]. split; [done|].
  intros d (i & Hi)%list_elem_of_lookup Hmatch.
  assert (i ∈ scores.*1) as Hin by (apply Hkeys; eauto).
  apply list_elem_of_fmap in Hin
    as ([i' s] & Heq & (n & Hn)%list_elem_of_lookup).
  cbn in Heq. subst i'.
  destruct (Forall2_lookup_l _ _ _ _ _ Hall Hn) as ([s' d'] & Hc & Hs & Hd).
  cbn in Hs, Hd. rewrite build_docs in Hd.
  assert (d' = d) as -> by congruence.
  exists s'. rewrite sorted_desc_perm. apply list_elem_of_lookup. eauto.
Qed.

Lemma search_complete_witness :
  length scenario_docs ≤ 2
  ∧ ∃ res,
      search (build scenario_docs) (py "tagY contentA") (Z.of_nat 2) = Some res
      ∧ length res
        = length (filter (matches (py "tagY contentA")) scenario_docs)
      ∧ ∀ d, d ∈ scenario_docs → matches (py "tagY contentA") d →
             ∃ s, (s, d) ∈ res.
Proof.
  split; [reflexivity|]. apply search_complete. reflexivity.
Defined.

(* ===================================================================== *)
(** ** The score of a document *)
(* ===================================================================== *)







(* ===================================================================== *)
(** ** The document list *)
(* ===================================================================== *)

Lemma MD_LINK_scan_texts s st st2 :
  link_states st st2 →
  (MD_LINK_scan st2 s).*1 = Re.MD_LINK_TEXT_scan st s.
Proof.
  revert st st2. induction s as [|c s IH]; intros st st2 Hst; [done|].
  destruct st as [|acc|acc|acc n], st2 as [|acc2|acc2|acc2 tacc];
    try done; cbn [link_states] in Hst;
    cbn [MD_LINK_scan Re.MD_LINK_TEXT_scan].
  - case_match; by apply IH.
  - subst acc2. case_match; [|by apply IH]. destruct acc; by apply IH.
  - subst acc2. repeat case_match; by apply IH.
  - destruct Hst as [-> ->]. case_match.
    + destruct tacc as [|x tacc]; cbn [length Nat.eqb]; [by apply IH|].
      cbn [fmap list_fmap fst]. f_equal. by apply IH.
    + apply IH. by split.
Qed.

(** X13: the regular expression that reads the links of the document list
    and the one that extracts the link texts of a document find the same
    link texts, in the same order. *)
Theorem link_texts_agree (s : str) :
  (MD_LINK_finditer s).*1 = Re.MD_LINK_TEXT_findall s.
Proof. by apply MD_LINK_scan_texts. Qed.

(** X14: every link that the parser of the document list returns has an
    allowed URL in normal form (normalizing it again changes nothing), and
    there are no more links than matches of the link pattern. *)
Theorem llms_links_allowed (txt : str) :
  Forall (λ l, is_url_allowed l.2 = true ∧ normalize_url l.2 = Some l.2)
         (llms_links txt)
  ∧ length (llms_links txt) ≤ length (MD_LINK_finditer txt).
Proof.
  unfold llms_links, links_of_matches.
  induction (MD_LINK_finditer txt) as [|m ms [IHall IHlen]];
    [by split; [constructor|]|].
  cbn [omap list_omap].
  destruct (normalize_url (Str.strip m.2)) as [u|] eqn:Hu; cbn.
  - apply normalize_url_Some in Hu as (Hok & _ & Hfix).
    split; [by constructor | lia].
  - split; [done | lia].
Qed.

Lemma index_of_links_build links :
  index_of_links links = build (map doc_of_link links).
Proof.
  unfold index_of_links, build. generalize init.
  induction links as [|l links IH]; intros self; [done|].
  cbn [foldl map]. apply IH.
Qed.

Lemma doc_of_link_content link : Doc.content (doc_of_link link) = [].
Proof. by destruct link. Qed.

Lemma count_nil_token t : t ≠ [] → Str.count [] t = 0.
Proof. by destruct t. Qed.

(** X15: the index that [search_agentcore_docs] builds holds one document
    per link, each with an empty body; so only the index title is scored:
    the haystack tokens are the tokens of the lowercased index title, and
    the term frequency of a token is its count there times the boost for
    empty bodies. *)
Theorem index_of_links_titles (links : list (str * str)) :
  length (docs (index_of_links links)) = length links
  ∧ Forall (λ d,
              Doc.content d = []
              ∧ _title_boost_for d = _TITLE_BOOST_EMPTY
              ∧ haystack_tokens d
                = Re.TOKEN_findall (Str.lower (Doc.index_title d))
              ∧ ∀ t, t ≠ [] →
                     term_frequency d t
                     = Str.count (Str.lower (Doc.index_title d)) t
                       * _TITLE_BOOST_EMPTY)
           (docs (index_of_links links)).
Proof.
  rewrite index_of_links_build, build_docs, length_map.
  split; [done|]. apply Forall_fmap, Forall_forall. intros link _.
  unfold compose. pose proof (doc_of_link_content link) as Hc.
  split; [done|]. split; [|split].
  - unfold _title_boost_for. by rewrite Hc.
  - rewrite haystack_tokens_fields.
    unfold headers_of, link_text_of, code_blocks_of. rewrite Hc.
    change (Str.lower []) with (@nil ascii).
    change (Re.MD_HEADER_findall []) with (@nil str).
    change (Re.MD_LINK_TEXT_findall []) with (@nil str).
    change (Re.MD_CODE_BLOCK_findall []) with (@nil str).
    change (field_tokens []) with (@nil str).
    change (Re.TOKEN_findall []) with (@nil str).
    by rewrite !app_nil_r.
  - intros t Ht. unfold term_frequency, _title_boost_for,
      headers_of, link_text_of, code_blocks_of.
    rewrite Hc.
    change (Str.lower []) with (@nil ascii).
    change (Re.MD_HEADER_findall []) with (@nil str).
    change (Re.MD_LINK_TEXT_findall []) with (@nil str).
    change (Re.MD_CODE_BLOCK_findall []) with (@nil str).
    rewrite count_nil_token by done.
    change (weighted_count _ t []) with 0.
    change (length (@nil ascii) =? 0) with true. cbv iota zeta. lia.
Qed.

(* ===================================================================== *)
(** ** Whitespace *)
(* ===================================================================== *)

Lemma lstrip_app a b :
  Str.lstrip (a ++ b)
  = match Str.lstrip a with [] => Str.lstrip b | r => r ++ b end.
Proof.
  induction a as [|c a IH]; [done|]. cbn [app Str.lstrip].
  by destruct (Char.is_space c).
Qed.

Lemma rstrip_nil_iff s : Str.rstrip s = [] ↔ Str.lstrip (rev s) = [].
Proof.
  unfold Str.rstrip. split; [|by intros ->].
  intros H. apply (f_equal (@rev ascii)) in H. by rewrite rev_involutive in H.
Qed.

Lemma rstrip_app a b :
  Str.rstrip (a ++ b)
  = match Str.rstrip b with [] => Str.rstrip a | r => a ++ r end.
Proof.
  unfold Str.rstrip at 1. rewrite rev_app_distr, lstrip_app.
  destruct (Str.lstrip (rev b)) as [|x r] eqn:Hb.
  - by rewrite (proj2 (rstrip_nil_iff b) Hb).
  - unfold Str.rstrip at 1. rewrite Hb.
    rewrite rev_app_distr, rev_involutive.
    destruct (rev (x :: r)) eqn:Hr; [|done].
    apply (f_equal (@rev ascii)) in Hr. rewrite rev_involutive in Hr.
    discriminate Hr.
Qed.

Lemma rstrip_cons c s :
  Str.rstrip (c :: s)
  = match Str.rstrip s with
    | [] => if Char.is_space c then [] else [c]
    | r => c :: r
    end.
Proof.
  change (c :: s) with ([c] ++ s). rewrite rstrip_app.
  destruct (Str.rstrip s); [|done].
  unfold Str.rstrip. cbn. by destruct (Char.is_space c).
Qed.

Lemma rstrip_length s : length (Str.rstrip s) ≤ length s.
Proof.
  induction s as [|c s IH]; [done|]. rewrite rstrip_cons.
  destruct (Str.rstrip s); cbn [length] in *; [|lia].
  destruct (Char.is_space c); cbn; lia.
Qed.

Lemma rstrip_word w : is_word_str w → Str.rstrip w = w.
Proof.
  intros [Hne Hall]. induction Hall as [|c w Hc Hall IH]; [done|].
  rewrite rstrip_cons. apply negb_true_iff in Hc. rewrite Hc.
  destruct w as [|c' w]; [done|]. by rewrite IH.
Qed.

Lemma split_Forall s : Forall is_word_str (Str.split s).
Proof. apply runs_Forall. Qed.

Lemma join_cons_cons sep x y l :
  Str.join sep (x :: y :: l) = x ++ sep ++ Str.join sep (y :: l).
Proof. done. Qed.

Lemma join_word_nonempty w ws :
  is_word_str w → Str.join (py " ") (w :: ws) ≠ [].
Proof. intros [Hne _]. destruct ws, w; done. Qed.

Lemma WHITESPACE_sub_nonspace c s :
  Char.is_space c = false →
  Re.WHITESPACE_sub (c :: s) = c :: Re.WHITESPACE_sub s.
Proof. intros Hc. cbn [Re.WHITESPACE_sub]. by rewrite Hc. Qed.

Lemma WHITESPACE_sub_space_end c :
  Char.is_space c = true → Re.WHITESPACE_sub [c] = [" "%char].
Proof. intros Hc. cbn [Re.WHITESPACE_sub]. by rewrite Hc. Qed.

Lemma WHITESPACE_sub_space_space c c' s :
  Char.is_space c = true → Char.is_space c' = true →
  Re.WHITESPACE_sub (c :: c' :: s) = Re.WHITESPACE_sub (c' :: s).
Proof. intros Hc Hc'. cbn [Re.WHITESPACE_sub]. by rewrite Hc, Hc'. Qed.

Lemma WHITESPACE_sub_space_nonspace c c' s :
  Char.is_space c = true → Char.is_space c' = false →
  Re.WHITESPACE_sub (c :: c' :: s) = " "%char :: Re.WHITESPACE_sub (c' :: s).
Proof. intros Hc Hc'. cbn [Re.WHITESPACE_sub]. by rewrite Hc, Hc'. Qed.

Lemma lstrip_space c s :
  Char.is_space c = true → Str.lstrip (c :: s) = Str.lstrip s.
Proof. intros Hc. cbn [Str.lstrip]. by rewrite Hc. Qed.

Lemma lstrip_nonspace c s :
  Char.is_space c = false → Str.lstrip (c :: s) = c :: s.
Proof. intros Hc. cbn [Str.lstrip]. by rewrite Hc. Qed.

(** What [_WHITESPACE.sub(' ', s)] starts with. *)
Lemma WHITESPACE_sub_space c s :
  Char.is_space c = true →
  Re.WHITESPACE_sub (c :: s)
  = " "%char :: Str.lstrip (Re.WHITESPACE_sub (c :: s)).
Proof.
  revert c. induction s as [|c' s IH]; intros c Hc.
  - by rewrite WHITESPACE_sub_space_end.
  - destruct (Char.is_space c') eqn:Hc'.
    + rewrite WHITESPACE_sub_space_space by done. by apply IH.
    + rewrite WHITESPACE_sub_space_nonspace by done.
      rewrite (lstrip_space " "%char) by done.
      by rewrite WHITESPACE_sub_nonspace, lstrip_nonspace.
Qed.

Lemma WHITESPACE_sub_space_lstrip c s :
  Char.is_space c = true →
  Str.lstrip (Re.WHITESPACE_sub (c :: s)) = Str.lstrip (Re.WHITESPACE_sub s).
Proof.
  intros Hc. destruct s as [|c' s].
  - by rewrite WHITESPACE_sub_space_end.
  - destruct (Char.is_space c') eqn:Hc'.
    + by rewrite WHITESPACE_sub_space_space.
    + rewrite WHITESPACE_sub_space_nonspace by done.
      by rewrite (lstrip_space " "%char).
Qed.

Lemma split_space c s :
  Char.is_space c = true → Str.split (c :: s) = Str.split s.
Proof. intros Hc. apply runs_cons_false. by rewrite Hc. Qed.

(** [normalize] turns a text into its words joined by single blanks. *)
Lemma normalize_words s : normalize s = Str.join (py " ") (Str.split s).
Proof.
  unfold normalize, Str.strip.
  induction s as [|c s IH]; [done|].
  destruct (Char.is_space c) eqn:Hc.
  - by rewrite WHITESPACE_sub_space_lstrip, split_space.
  - rewrite WHITESPACE_sub_nonspace, lstrip_nonspace by done.
    assert (Str.rstrip (c :: Re.WHITESPACE_sub s)
            = c :: Str.rstrip (Re.WHITESPACE_sub s)) as ->.
    { rewrite rstrip_cons, Hc.
      by destruct (Str.rstrip (Re.WHITESPACE_sub s)). }
    destruct s as [|c' s].
    { unfold Str.split. by rewrite runs_singleton by (by rewrite Hc). }
    destruct (Char.is_space c') eqn:Hc'.
    + unfold Str.split. rewrite runs_cons_true_stop by (by rewrite ?Hc, ?Hc').
      fold (Str.split (c' :: s)).
      rewrite WHITESPACE_sub_space by done. rewrite rstrip_cons, IH.
      pose proof (split_Forall (c' :: s)) as Hwords.
      destruct (Str.split (c' :: s)) as [|w ws] eqn:Hsplit; [done|].
      apply Forall_cons in Hwords as [Hw _].
      pose proof (join_word_nonempty w ws Hw) as Hne.
      destruct (Str.join (py " ") (w :: ws)) eqn:Hj; [done|].
      by rewrite join_cons_cons, Hj.
    + rewrite (WHITESPACE_sub_nonspace c') in IH |- * by done.
      rewrite lstrip_nonspace in IH by done.
      rewrite IH. unfold Str.split.
      set (p := λ x, negb (Char.is_space x)).
      assert (p c = true) as Hp by (unfold p; by rewrite Hc).
      assert (p c' = true) as Hp' by (unfold p; by rewrite Hc').
      destruct (runs_first p c' s Hp') as (t & post & Hr & _).
      rewrite (runs_cons_true_go p c c' s _ _ Hp Hp' Hr), Hr.
      by destruct (Str.runs p post).
Qed.

Lemma split_join_words ws :
  Forall is_word_str ws → Str.split (Str.join (py " ") ws) = ws.
Proof.
  induction 1 as [|w ws [Hne Hw] Hws IH]; [done|].
  destruct ws as [|w' ws].
  - by apply runs_all.
  - rewrite join_cons_cons. unfold Str.split in *.
    change (py " " ++ ?x) with (" "%char :: x).
    rewrite runs_app_sep by done. by rewrite runs_all, IH.
Qed.

Lemma normalize_join_words ws :
  Forall is_word_str ws →
  normalize (Str.join (py " ") ws) = Str.join (py " ") ws.
Proof. intros Hws. by rewrite normalize_words, split_join_words. Qed.

(** X16: [normalize] turns a text into its words, the maximal runs of
    characters that are no whitespace, joined by single blanks; normalizing
    twice is normalizing once. *)
Theorem normalize_normal_form (s : str) :
  normalize s = Str.join (py " ") (Str.split s)
  ∧ Forall is_word_str (Str.split s)
  ∧ normalize (normalize s) = normalize s.
Proof.
  split; [apply normalize_words|]. split; [apply split_Forall|].
  rewrite (normalize_words s). apply normalize_join_words, split_Forall.
Qed.

(* ===================================================================== *)
(** ** The shape and the length of a snippet *)
(* ===================================================================== *)

Lemma rstrip_nonspaces x :
  Forall (λ c, negb (Char.is_space c) = true) x →
  ∃ ws, Forall is_word_str ws ∧ Str.rstrip x = Str.join (py " ") ws.
Proof.
  intros Hx. destruct x as [|c x].
  - by exists [].
  - assert (is_word_str (c :: x)) as Hw by done.
    exists [c :: x]. split; [by constructor|].
    by apply rstrip_word.
Qed.

Lemma join_words_nil ws :
  Forall is_word_str ws → Str.join (py " ") ws = [] → ws = [].
Proof.
  destruct 1 as [|w ws Hw Hws]; [done|].
  intros Hj. by apply join_word_nonempty in Hj.
Qed.

(** What is left of a prefix of blank-separated words when the whitespace
    at its end is removed is a list of blank-separated words again. *)
Lemma rstrip_take_join_words ws m :
  Forall is_word_str ws →
  ∃ ws', Forall is_word_str ws'
         ∧ Str.rstrip (take m (Str.join (py " ") ws)) = Str.join (py " ") ws'.
Proof.
  intros Hws. revert m. induction Hws as [|w ws Hw Hws IH]; intros m.
  - exists []. cbn [Str.join]. by rewrite take_nil.
  - destruct ws as [|w' ws].
    + apply rstrip_nonspaces, Forall_take. by destruct Hw.
    + rewrite join_cons_cons.
      destruct (decide (m ≤ length w)) as [Hle|Hgt].
      * rewrite take_app_le by done.
        apply rstrip_nonspaces, Forall_take. by destruct Hw.
      * rewrite take_app_ge by lia.
        destruct (m - length w) as [|m'] eqn:Hm; [lia|].
        change (take (S m') (py " " ++ ?x)) with (" "%char :: take m' x).
        destruct (IH m') as (ws' & Hws' & Hr).
        rewrite rstrip_app, rstrip_cons, Hr.
        destruct (Str.join (py " ") ws') as [|c r] eqn:Hj.
        -- exists [w]. split; [by constructor|]. by apply rstrip_word.
        -- exists (w :: ws'). split; [by constructor|].
           destruct ws' as [|w2 ws']; [done|].
           by rewrite join_cons_cons, Hj.
Qed.

Lemma join_words_app_word ws e :
  Forall is_word_str ws → is_word_str e →
  ∃ ws', Forall is_word_str ws'
         ∧ Str.join (py " ") ws ++ e = Str.join (py " ") ws'.
Proof.
  intros Hws He. induction Hws as [|w ws Hw Hws IH].
  - exists [e]. by split; [constructor|].
  - destruct ws as [|w' ws].
    + exists [w ++ e]. split; [|done]. constructor; [|done].
      destruct Hw as [Hne Hw], He as [_ He].
      split; [by destruct w | by apply Forall_app].
    + destruct IH as (ws' & Hws' & Hj).
      exists (w :: ws'). split; [by constructor|].
      rewrite join_cons_cons, <- !app_assoc, Hj.
      destruct ws' as [|w2 ws']; [|done].
      exfalso. destruct He as [Hne _]. destruct e as [|c e]; [done|].
      apply (f_equal length) in Hj. rewrite length_app in Hj.
      cbn [Str.join length] in Hj. lia.
Qed.

Lemma ellipsis_word : is_word_str Snippet.ellipsis.
Proof. split; [done|]. by repeat constructor. Qed.

Lemma slice_to_take {A} (l : list A) (n : Z) : ∃ m, slice_to l n = take m l.
Proof. unfold slice_to. case_match; eauto. Qed.

(** A snippet computed from a non-empty content is a list of words joined
    by single blanks. *)
Lemma truncate_words ws max_chars :
  Forall is_word_str ws →
  ∃ ws', Forall is_word_str ws'
         ∧ Snippet.truncate (Str.join (py " ") ws) max_chars
           = Str.join (py " ") ws'.
Proof.
  intros Hws. unfold Snippet.truncate. case_match; [|by exists ws].
  destruct (slice_to_take (Str.join (py " ") ws) (max_chars - 1)) as [m ->].
  destruct (rstrip_take_join_words ws m Hws) as (ws1 & Hws1 & ->).
  apply join_words_app_word; [done | apply ellipsis_word].
Qed.

(** X17: the snippet of a page with a non-empty body is a single line of
    words joined by single blanks, without whitespace at either end:
    [normalize] leaves it as it is. *)
Theorem snippet_single_line (p : Page.t) (display_title : str)
    (max_chars : Z) :
  Page.content p ≠ [] →
  let result := make_snippet (Some p) display_title max_chars in
  (∃ ws, Forall is_word_str ws ∧ result = Str.join (py " ") ws)
  ∧ normalize result = result.
Proof.
  intros Hne. cbv zeta. rewrite make_snippet_content by done.
  unfold snippet_text, Snippet.collapse.
  destruct (truncate_words _ max_chars (split_Forall
    (Snippet.first_paragraph display_title
       (Snippet.drop_title_line display_title
          (Snippet.lines_of (Page.content p))))))
    as (ws & Hws & ->).
  split; [by exists ws|]. by apply normalize_join_words.
Qed.

Lemma snippet_single_line_witness :
  let p := Page.make [] []
             (py "First  line" ++ LF :: py "second line." ++ LF :: py "3") in
  Page.content p ≠ []
  ∧ ((∃ ws, Forall is_word_str ws
            ∧ make_snippet (Some p) (py "T") 300 = Str.join (py " ") ws)
     ∧ normalize (make_snippet (Some p) (py "T") 300)
       = make_snippet (Some p) (py "T") 300).
Proof.
  cbv zeta. split; [done|].
  apply (snippet_single_line
           (Page.make [] []
              (py "First  line" ++ LF :: py "second line." ++ LF :: py "3"))).
  done.
Defined.

(** X18: for [max_chars >= 1] the snippet of a page with a non-empty body
    has at most [max_chars + 2] characters: at most [max_chars - 1] are
    kept before the three of the marker. *)
Theorem snippet_length_bound (p : Page.t) (display_title : str)
    (max_chars : Z) :
  Page.content p ≠ [] →
  (1 <= max_chars)%Z →
  (Z.of_nat (length (make_snippet (Some p) display_title max_chars))
   <= max_chars + 2)%Z.
Proof.
  intros Hne Hmax. rewrite make_snippet_content by done.
  unfold Snippet.truncate. case_match eqn:Hlong.
  - rewrite length_app. unfold slice_to.
    rewrite (proj2 (Z.leb_le _ _)) by lia.
    pose proof (rstrip_length
      (take (Z.to_nat (max_chars - 1))
         (snippet_text (Page.content p) display_title))) as Hr.
    rewrite length_take in Hr.
    change (length Snippet.ellipsis) with 3. lia.
  - apply Z.ltb_ge in Hlong. lia.
Qed.

Lemma snippet_length_bound_witness :
  let p := Page.make [] []
             (py "This single sentence is much longer than ten characters.") in
  Page.content p ≠ []
  ∧ (1 <= 10)%Z
  ∧ (Z.of_nat (length (make_snippet (Some p) (py "Title") 10)) <= 10 + 2)%Z.
Proof.
  cbv zeta. split; [done|]. split; [lia|].
  apply snippet_length_bound; [done | lia].
Defined.

(* ===================================================================== *)
(** ** Stripped strings *)
(* ===================================================================== *)

Lemma lstrip_length s : length (Str.lstrip s) ≤ length s.
Proof.
  induction s as [|c s IH]; [done|]. cbn [Str.lstrip].
  destruct (Char.is_space c); cbn [length]; lia.
Qed.

Lemma lstrip_fixed_head c s :
  Str.lstrip (c :: s) = c :: s → Char.is_space c = false.
Proof.
  intros H. destruct (Char.is_space c) eqn:Hc; [|done].
  rewrite lstrip_space in H by done.
  pose proof (lstrip_length s) as Hlen. rewrite H in Hlen.
  cbn [length] in Hlen. lia.
Qed.

Lemma lstrip_idemp s : Str.lstrip (Str.lstrip s) = Str.lstrip s.
Proof.
  induction s as [|c s IH]; [done|].
  destruct (Char.is_space c) eqn:Hc.
  - by rewrite lstrip_space.
  - by rewrite !lstrip_nonspace.
Qed.

Lemma rstrip_idemp s : Str.rstrip (Str.rstrip s) = Str.rstrip s.
Proof. unfold Str.rstrip. by rewrite rev_involutive, lstrip_idemp. Qed.

Lemma rstrip_snoc s c :
  Str.rstrip (s ++ [c]) = if Char.is_space c then Str.rstrip s else s ++ [c].
Proof.
  rewrite rstrip_app. unfold Str.rstrip at 1. cbn [rev app Str.lstrip].
  by destruct (Char.is_space c).
Qed.

Lemma rstrip_fixed_last s c :
  Str.rstrip (s ++ [c]) = s ++ [c] → Char.is_space c = false.
Proof.
  rewrite rstrip_snoc. destruct (Char.is_space c); [|done].
  intros H. pose proof (rstrip_length s) as Hlen. rewrite H in Hlen.
  rewrite length_app in Hlen. cbn [length] in Hlen. lia.
Qed.

Lemma lstrip_rstrip_fixed s :
  Str.lstrip s = s → Str.lstrip (Str.rstrip s) = Str.rstrip s.
Proof.
  destruct s as [|c s]; [done|]. intros Hc%lstrip_fixed_head.
  rewrite rstrip_cons, Hc.
  destruct (Str.rstrip s); by rewrite lstrip_nonspace.
Qed.

Lemma strip_fixed s :
  Str.lstrip (Str.strip s) = Str.strip s
  ∧ Str.rstrip (Str.strip s) = Str.strip s.
Proof.
  unfold Str.strip. split; [|apply rstrip_idemp].
  apply lstrip_rstrip_fixed, lstrip_idemp.
Qed.

Lemma elem_of_lstrip x s : x ∈ Str.lstrip s → x ∈ s.
Proof.
  induction s as [|c s IH]; [done|]. cbn [Str.lstrip].
  destruct (Char.is_space c); [|done]. intros H. right. by apply IH.
Qed.

Lemma elem_of_rev_list {A} (x : A) l : x ∈ rev l ↔ x ∈ l.
Proof. rewrite !list_elem_of_In. symmetry. apply in_rev. Qed.

Lemma elem_of_strip x s : x ∈ Str.strip s → x ∈ s.
Proof.
  unfold Str.strip, Str.rstrip. rewrite elem_of_rev_list.
  intros H%elem_of_lstrip. rewrite elem_of_rev_list in H.
  by apply elem_of_lstrip.
Qed.

(* ===================================================================== *)
(** ** [title_from_url] *)
(* ===================================================================== *)

Lemma title_char_letter c :
  Str2.is_letter (Char.lower c) = Str2.is_letter c
  ∧ Str2.is_letter (Str2.upper_char c) = Str2.is_letter c
  ∧ Char.is_space (Char.lower c) = Char.is_space c
  ∧ Char.is_space (Str2.upper_char c) = Char.is_space c
  ∧ (Str2.is_letter c = false →
     Char.lower c = c ∧ Str2.upper_char c = c).
Proof. destruct c as [[] [] [] [] [] [] [] []]; done. Qed.

Lemma title_from_app b s c :
  ∃ c', Str2.title_from b (s ++ [c]) = Str2.title_from b s ++ [c']
        ∧ Char.is_space c' = Char.is_space c.
Proof.
  revert b. induction s as [|x s IH]; intros b.
  - cbn. destruct (title_char_letter c) as (_ & _ & H1 & H2 & _).
    destruct b; eauto.
  - destruct (IH (Str2.is_letter x)) as (c' & Heq & Hc').
    exists c'. cbn [app Str2.title_from]. by rewrite Heq.
Qed.

Lemma elem_of_title_from x b s :
  x ∈ Str2.title_from b s → Str2.is_letter x = false → x ∈ s.
Proof.
  revert b. induction s as [|c s IH]; intros b; [done|].
  cbn [Str2.title_from]. rewrite elem_of_cons.
  intros [Heq|Hin] Hx; apply elem_of_cons; [left|right; by eapply IH].
  destruct (title_char_letter c) as (H1 & H2 & _ & _ & H5).
  subst x. destruct b.
  - rewrite H1 in Hx. by destruct (H5 Hx) as [-> _].
  - rewrite H2 in Hx. by destruct (H5 Hx) as [_ ->].
Qed.

Lemma title_from_stripped b s :
  Str.lstrip s = s → Str.rstrip s = s →
  Str.strip (Str2.title_from b s) = Str2.title_from b s.
Proof.
  intros Hl Hr. unfold Str.strip.
  assert (Str.lstrip (Str2.title_from b s) = Str2.title_from b s) as ->.
  { destruct s as [|c s]; [done|]. apply lstrip_fixed_head in Hl.
    cbn [Str2.title_from]. apply lstrip_nonspace.
    destruct (title_char_letter c) as (_ & _ & H1 & H2 & _).
    destruct b; congruence. }
  destruct s as [|c s _] using rev_ind; [done|].
  apply rstrip_fixed_last in Hr.
  destruct (title_from_app b s c) as (c' & -> & Hc').
  rewrite rstrip_snoc. by rewrite Hc', Hr.
Qed.

Lemma not_elem_of_replace_char a b s : a ≠ b → a ∉ Str2.replace_char a b s.
Proof.
  intros Hab (x & Hx & _)%list_elem_of_fmap. by case_bool_decide.
Qed.

Lemma elem_of_replace_char_other x a b s :
  x ∈ Str2.replace_char a b s → x ≠ b → x ∈ s.
Proof.
  intros (y & -> & Hy)%list_elem_of_fmap Hx. by case_bool_decide.
Qed.

(** X19: the title that [title_from_url] makes of a URL is never empty, has
    neither a hyphen nor an underscore, and neither starts nor ends with
    whitespace. *)
Theorem title_from_url_shape (url : str) :
  let t := title_from_url url in
  t ≠ [] ∧ ("-"%char ∉ t) ∧ ("_"%char ∉ t) ∧ Str.strip t = t.
Proof.
  cbv zeta. unfold title_from_url. cbv zeta.
  set (slug0 := default _ _).
  set (slug := Str.strip _).
  assert (("-"%char ∉ slug) ∧ ("_"%char ∉ slug)) as [Hh Hu].
  { split; intros Hin%elem_of_strip.
    - apply elem_of_replace_char_other in Hin; [|done].
      by apply not_elem_of_replace_char in Hin.
    - by apply not_elem_of_replace_char in Hin. }
  destruct (strip_fixed
              (Str2.replace_char "_"%char " "%char
                 (Str2.replace_char "-"%char " "%char slug0))) as [Hl Hr].
  fold slug in Hl, Hr.
  pose proof (title_from_stripped false slug Hl Hr) as Hstrip.
  fold (Str2.title slug) in Hstrip.
  destruct (Str2.title slug) as [|c t] eqn:Ht.
  - split; [done|]. split; [|split; [|reflexivity]];
      refine (bool_decide_unpack _ _); vm_compute; exact I.
  - split; [done|]. rewrite <- Ht in *. unfold Str2.title in *.
    split; [|split; [|done]]; intros Hin.
    + by apply elem_of_title_from in Hin.
    + by apply elem_of_title_from in Hin.
Qed.

(* ===================================================================== *)
(** ** A snippet is never blank *)
(* ===================================================================== *)

Lemma split_has_text s : has_text s → Str.split s ≠ [].
Proof.
  unfold has_text. induction s as [|c s IH]; [by intros ?%Exists_nil|].
  destruct (Char.is_space c) eqn:Hc.
  - rewrite split_space by done. intros [?|?]%Exists_cons; [congruence|auto].
  - intros _. unfold Str.split.
    destruct (runs_first (λ x, negb (Char.is_space x)) c s)
      as (t & post & -> & _); [by rewrite Hc | done].
Qed.

Lemma collapse_has_text s : has_text s → Snippet.collapse s ≠ [].
Proof.
  intros Hs%split_has_text. unfold Snippet.collapse.
  pose proof (split_Forall s) as Hw.
  destruct (Str.split s) as [|w ws]; [done|].
  apply Forall_cons in Hw as [Hw _]. by apply join_word_nonempty.
Qed.

Lemma stripped_has_text s : Str.strip s ≠ [] → has_text (Str.strip s).
Proof.
  intros Hne. destruct (strip_fixed s) as [Hl _].
  destruct (Str.strip s) as [|c r]; [done|].
  apply lstrip_fixed_head in Hl. by left.
Qed.

Lemma lines_of_have_text content :
  Forall has_text (Snippet.lines_of content).
Proof.
  unfold Snippet.lines_of. apply Forall_forall.
  intros l (line & _ & Hl)%list_elem_of_omap.
  pose proof (stripped_has_text line) as Ht.
  destruct (Str.strip line) as [|c r]; [done|].
  injection Hl as <-. by apply Ht.
Qed.

Lemma drop_title_line_Forall (P : str → Prop) title lines :
  Forall P lines → Forall P (Snippet.drop_title_line title lines).
Proof.
  intros H. unfold Snippet.drop_title_line.
  destruct H as [|l lines Hl Hlines]; [done|].
  case_match; [done | by constructor].
Qed.

Lemma join_has_text buf :
  buf ≠ [] → Forall has_text buf → has_text (Str.join (py " ") buf).
Proof.
  intros Hne Hall. destruct Hall as [|b buf Hb _]; [done|].
  unfold has_text in *. destruct buf as [|b' buf]; [done|].
  rewrite join_cons_cons. apply Exists_app. by left.
Qed.

Lemma paragraph_loop_has_text lines buf :
  Forall has_text lines → Forall has_text buf →
  Forall has_text (Snippet.paragraph_loop lines buf).1
  ∧ Forall has_text (Snippet.paragraph_loop lines buf).2.
Proof.
  intros Hlines. revert buf.
  induction Hlines as [|line lines Hline Hlines IH]; intros buf Hbuf;
    cbn [Snippet.paragraph_loop]; [done|].
  destruct (Snippet.is_structure_line line).
  - destruct buf; [by apply IH | done].
  - assert (Forall has_text (buf ++ [line])) as Hbuf'
      by (apply Forall_app; split; [done | by constructor]).
    case_match; [|by apply IH].
    split; [|done]. constructor; [|done].
    apply join_has_text; [by destruct buf | done].
Qed.

Lemma first_paragraph_has_text title lines :
  has_text title → Forall has_text lines →
  has_text (Snippet.first_paragraph title lines).
Proof.
  intros Ht Hlines. unfold Snippet.first_paragraph.
  destruct (paragraph_loop_has_text lines [] Hlines) as [Hp Hb];
    [constructor|].
  destruct (Snippet.paragraph_loop lines []) as [paras buf]. cbn in Hp, Hb.
  destruct paras as [|p paras].
  - destruct buf as [|b buf]; [done|]. by apply join_has_text.
  - by apply Forall_cons in Hp as [Hp _].
Qed.

(** X20: when the display title has a character that is no whitespace,
    [make_snippet] never returns the empty string, whatever the page and
    [max_chars]. *)
Theorem snippet_nonempty (page : option Page.t) (display_title : str)
    (max_chars : Z) :
  has_text display_title →
  make_snippet page display_title max_chars ≠ [].
Proof.
  intros Ht.
  assert (display_title ≠ []) as Hne by (by destruct Ht).
  destruct page as [p|]; [|done].
  destruct (decide (Page.content p = [])) as [Hempty|Hcontent].
  { unfold make_snippet. by rewrite Hempty. }
  rewrite make_snippet_content by done. unfold Snippet.truncate.
  case_match.
  - intros Hnil. apply (f_equal length) in Hnil.
    rewrite length_app in Hnil.
    change (length Snippet.ellipsis) with 3 in Hnil. cbn in Hnil. lia.
  - apply collapse_has_text, first_paragraph_has_text; [done|].
    apply drop_title_line_Forall, lines_of_have_text.
Qed.

Lemma snippet_nonempty_witness :
  has_text (py "Intro")
  ∧ make_snippet (Some (Page.make [] [] (py "# Intro"))) (py "Intro") 0 ≠ [].
Proof.
  assert (has_text (py "Intro")) as H by (by left).
  split; [exact H|]. by apply snippet_nonempty.
Defined.

(* ===================================================================== *)
(** ** Pages: [html_to_text], [fetch_and_clean] *)
(* ===================================================================== *)

Lemma splitlines_from_one_line cur l rest :
  one_line l →
  Str.splitlines_from cur (l ++ rest) = Str.splitlines_from (rev l ++ cur) rest.
Proof.
  intros Hl. revert cur. induction Hl as [|c l Hc _ IH]; intros cur; [done|].
  cbn [app Str.splitlines_from]. rewrite Hc, IH.
  cbn [rev]. by rewrite <- app_assoc.
Qed.

Lemma splitlines_from_Forall cur s :
  one_line cur → Forall one_line (Str.splitlines_from cur s).
Proof.
  remember (length s) as n eqn:Hn. revert cur s Hn.
  induction n as [n IH] using lt_wf_ind. intros cur s -> Hcur.
  assert (one_line (rev cur)) as Hrev.
  { unfold one_line in Hcur |- *. rewrite Forall_forall in Hcur.
    apply Forall_forall. intros c Hc. rewrite elem_of_rev_list in Hc.
    by apply Hcur. }
  destruct s as [|c s]; cbn [Str.splitlines_from].
  { destruct cur; [constructor|]. by repeat constructor. }
  destruct (Char.is_linebreak c) eqn:Hc.
  - destruct s as [|c' s]; [by repeat constructor|].
    destruct (Char.is_cr c && Char.is_newline c'); constructor; try done.
    + eapply IH; [|done|constructor]. cbn [length]. lia.
    + eapply IH; [|done|constructor]. cbn [length]. lia.
  - eapply IH; [|done|by constructor]. cbn [length]. lia.
Qed.

Lemma splitlines_one_line s : Forall one_line (Str.splitlines s).
Proof. apply splitlines_from_Forall. constructor. Qed.

Lemma strip_one_line s : one_line s → one_line (Str.strip s).
Proof.
  unfold one_line. rewrite !Forall_forall.
  intros H c Hc%elem_of_strip. by apply H.
Qed.

Lemma splitlines_from_LF cur s :
  s ≠ [] → Str.splitlines_from cur (LF :: s) = rev cur :: Str.splitlines_from [] s.
Proof. by destruct s. Qed.

(** The lines of the texts of a list, joined by line feeds, are the texts,
    if none of them is empty or has a line boundary in it. *)
Lemma splitlines_join lines :
  Forall (λ ln, ln ≠ [] ∧ one_line ln) lines →
  Str.splitlines (Str.join [LF] lines) = lines.
Proof.
  unfold Str.splitlines.
  induction 1 as [|ln lines [Hne Hln] Hall IH]; [done|].
  destruct lines as [|ln' lines].
  - cbn [Str.join]. rewrite <- (app_nil_r ln) at 1.
    rewrite splitlines_from_one_line, app_nil_r by done.
    cbn [Str.splitlines_from]. rewrite rev_involutive.
    destruct (rev ln) eqn:Hrev; [|done].
    apply (f_equal (@rev _)) in Hrev. rewrite rev_involutive in Hrev. done.
  - change (Str.join [LF] (ln :: ln' :: lines))
      with (ln ++ [LF] ++ Str.join [LF] (ln' :: lines)).
    rewrite splitlines_from_one_line, app_nil_r by done.
    apply Forall_cons in Hall as [[Hne' _] _].
    cbn [app]. rewrite splitlines_from_LF, rev_involutive, IH; [done|].
    destruct ln'; [done|]. destruct lines; discriminate.
Qed.

Lemma strip_idemp s : Str.strip (Str.strip s) = Str.strip s.
Proof.
  destruct (strip_fixed s) as [Hl Hr].
  unfold Str.strip at 1. by rewrite Hl, Hr.
Qed.

(** X21: the text that [html_to_text] returns, whatever the page and the
    table of [html.unescape], is made of its lines joined by single line
    feeds, with no line feed at its end, and none of its lines is empty or
    has whitespace at its start or at its end. *)
Theorem html_to_text_lines (unescape : str → str) (raw_html : str) :
  Str.join [LF] (Str.splitlines (html_to_text unescape raw_html))
  = html_to_text unescape raw_html
  ∧ Forall (λ ln, ln ≠ [] ∧ Str.strip ln = ln)
           (Str.splitlines (html_to_text unescape raw_html)).
Proof.
  unfold html_to_text.
  set (src := Str.splitlines (unescape _)).
  assert (Forall one_line src) as Hsrc by apply splitlines_one_line.
  set (lines := filter _ _).
  assert (Forall (λ ln, ln ≠ [] ∧ one_line ln ∧ Str.strip ln = ln) lines)
    as Hlines.
  { apply Forall_forall. intros ln [Hne Hin]%list_elem_of_filter.
    split; [done|].
    apply list_elem_of_In, in_map_iff in Hin as (l & <- & Hl).
    apply list_elem_of_In in Hl. rewrite Forall_forall in Hsrc.
    split; [|apply strip_idemp]. apply strip_one_line, Hsrc, Hl. }
  rewrite splitlines_join.
  - split; [done|]. eapply Forall_impl; [exact Hlines|]. by intros ln (? & _ & ?).
  - eapply Forall_impl; [exact Hlines|]. by intros ln (? & ? & _).
Qed.

Lemma find_from_head c pat s :
  is_Some (Html.find_from false (c :: pat) s) → c ∈ s.
Proof.
  induction s as [|x s IH]; cbn [Html.find_from Str.startswith].
  { by intros [? [=]]. }
  destruct (bool_decide (c = x)) eqn:Hx.
  { apply bool_decide_eq_true in Hx as ->. intros _. by left. }
  cbn [andb]. intros [n Hn]. right. apply IH.
  destruct (Html.find_from false (c :: pat) s); [by eexists|done].
Qed.

Lemma contains_head c pat s : Html.contains (c :: pat) s = true → c ∈ s.
Proof.
  unfold Html.contains. intros H%bool_decide_eq_true. by eapply find_from_head.
Qed.

Lemma lower_char_lt c : Char.lower c = "<"%char → c = "<"%char.
Proof. destruct c as [[] [] [] [] [] [] [] []]; by intros [=]. Qed.

Lemma not_elem_of_lower_lt s : "<"%char ∉ s → "<"%char ∉ Str.lower s.
Proof.
  intros Hs Hin. apply Hs. unfold Str.lower in Hin.
  apply list_elem_of_In, in_map_iff in Hin as (c & Hc%lower_char_lt & Hin).
  subst c. by apply list_elem_of_In.
Qed.

Lemma is_url_allowed_nonempty u : is_url_allowed u = true → u ≠ [].
Proof. by intros H ->. Qed.

Section pipeline.

Context (unescape : str → str) {World : Type}.
Context (fetch_url : World → str → World * option str).
Context (round_ : R → Z → R).

(** X22: a text without the character [<] is no HTML page for
    [fetch_and_clean]: the page that it returns has the fetched text as its
    content, unchanged, and a title that is not empty. *)
Theorem fetch_and_clean_plain (w w' : World) (page_url url raw : str) :
  normalize_url page_url = Some url →
  fetch_url w url = (w', Some raw) →
  "<"%char ∉ raw →
  ∃ title,
    fetch_and_clean unescape World fetch_url w page_url
    = (w', Some (Page.make url title raw))
    ∧ title ≠ [].
Proof.
  intros Hurl Hraw Hlt. unfold fetch_and_clean. rewrite Hurl, Hraw.
  apply not_elem_of_lower_lt in Hlt.
  assert (∀ pat, Html.contains ("<"%char :: pat) (Str.lower raw) = false)
    as Hno.
  { intros pat. destruct (Html.contains _ _) eqn:Hc; [|done].
    by apply contains_head in Hc. }
  change (py "<html") with ("<"%char :: py "html").
  change (py "<head") with ("<"%char :: py "head").
  change (py "<body") with ("<"%char :: py "body").
  rewrite !Hno. cbn [orb]. eexists. split; [done|].
  apply normalize_url_Some in Hurl as [Hallowed%is_url_allowed_nonempty _].
  unfold str_or. by destruct (after_last_slash url).
Qed.

Lemma fetch_and_clean_ext (g : World → str → World * option str) w page_url :
  (∀ w u, is_url_allowed u = true → fetch_url w u = g w u) →
  fetch_and_clean unescape World fetch_url w page_url
  = fetch_and_clean unescape World g w page_url.
Proof.
  intros Hfg. unfold fetch_and_clean.
  destruct (normalize_url page_url) as [u|] eqn:Hu; [|done].
  apply normalize_url_Some in Hu as [Hallowed _]. by rewrite Hfg.
Qed.

Lemma hydrate_ext (g : World → str → World * option str) w url_cache results :
  (∀ w u, is_url_allowed u = true → fetch_url w u = g w u) →
  hydrate unescape World fetch_url w url_cache results
  = hydrate unescape World g w url_cache results.
Proof.
  intros Hfg. revert w url_cache.
  induction results as [|[s doc] results IH]; intros w url_cache; [done|].
  cbn [hydrate]. rewrite <- (fetch_and_clean_ext g) by done.
  destruct (url_cache !! Doc.uri doc); [done|].
  by destruct (fetch_and_clean _ _ _ _ _) as [w' [page|]].
Qed.

Lemma LLMS_TXT_URL_allowed : is_url_allowed LLMS_TXT_URL = true.
Proof. reflexivity. Qed.

(** X23: [search_agentcore_docs] requests no URL but allowed ones: its
    result and the state in which it leaves the world are the same on two
    networks that answer alike on the URLs that [is_url_allowed] accepts,
    whatever they do on the others. *)
Theorem search_agentcore_docs_allowed_only
    (g : World → str → World * option str) (w : World) (query : str) (k : Z) :
  (∀ w u, is_url_allowed u = true → fetch_url w u = g w u) →
  search_agentcore_docs unescape World fetch_url round_ w query k
  = search_agentcore_docs unescape World g round_ w query k.
Proof.
  intros Hfg. unfold search_agentcore_docs, parse_llms_txt.
  rewrite <- (Hfg w LLMS_TXT_URL LLMS_TXT_URL_allowed).
  destruct (fetch_url w LLMS_TXT_URL) as [w1 [txt|]]; [|done].
  destruct (search _ _ _) as [results|]; [|done].
  by rewrite <- (hydrate_ext g).
Qed.

End pipeline.

(* ===================================================================== *)
(** ** [search_agentcore_docs] *)
(* ===================================================================== *)

(** On an index built by [add], [search] raises no exception, returns
    documents of the index, and at most [k] of them. *)
Lemma search_docs ds query k :
  ∃ res,
    search (build ds) query k = Some res
    ∧ (∀ s d, (s, d) ∈ res → d ∈ ds)
    ∧ ((0 ≤ k)%Z → length res ≤ Z.to_nat k).
Proof.
  destruct (ranked_spec ds query) as (scores & cs & Hr & Hall & _).
  exists (slice_to (sorted_desc cs) k).
  split; [by apply search_unfold|]. split.
  - intros s d Hin%slice_to_subseteq. rewrite sorted_desc_perm in Hin.
    apply list_elem_of_lookup in Hin as [n Hn].
    destruct (Forall2_lookup_r _ _ _ _ _ Hall Hn) as (e & _ & _ & Hd).
    rewrite build_docs in Hd. cbn in Hd. by eapply list_elem_of_lookup_2.
  - intros Hk. unfold slice_to. rewrite (proj2 (Z.leb_le _ _)) by done.
    rewrite length_take. lia.
Qed.

Lemma llms_links_normalized txt l :
  l ∈ llms_links txt →
  is_url_allowed l.2 = true ∧ normalize_url l.2 = Some l.2.
Proof.
  unfold llms_links, links_of_matches.
  intros (m & _ & Hm)%list_elem_of_omap.
  destruct (normalize_url (Str.strip m.2)) as [u|] eqn:Hu; [|done].
  apply normalize_url_Some in Hu as (Hok & _ & Hfix).
  by injection Hm as <-.
Qed.

Lemma elem_of_map_doc_of_link d links :
  d ∈ map doc_of_link links →
  ∃ l, l ∈ links ∧ Doc.uri d = l.2 ∧ Doc.display_title d = normalize l.1.
Proof.
  intros ([title url] & <- & Hin)%list_elem_of_In%in_map_iff.
  exists (title, url). by rewrite list_elem_of_In.
Qed.

Section responses.

Context (unescape : str → str) {World : Type}.
Context (fetch_url : World → str → World * option str).
Context (round_ : R → Z → R).

Lemma response_entry_fields url_cache s d :
  Result.url (response_entry round_ url_cache (s, d)) = Doc.uri d
  ∧ Result.title (response_entry round_ url_cache (s, d)) = Doc.display_title d
  ∧ Result.snippet (response_entry round_ url_cache (s, d))
    = make_snippet_default (url_cache !! Doc.uri d) (Doc.display_title d).
Proof. done. Qed.

(** What [search_agentcore_docs] does once the document list is there. *)
Lemma search_agentcore_docs_fetched w w1 txt query k :
  fetch_url w LLMS_TXT_URL = (w1, Some txt) →
  ∃ results,
    search (build (map doc_of_link (llms_links txt))) query k = Some results
    ∧ search_agentcore_docs unescape World fetch_url round_ w query k
      = let '(w', url_cache) :=
          hydrate unescape World fetch_url w1 ∅
            (slice_to results SNIPPET_HYDRATE_MAX) in
        (w', Some (map (response_entry round_ url_cache) results)).
Proof.
  intros Hfetch.
  destruct (search_docs (map doc_of_link (llms_links txt)) query k)
    as (results & Hsearch & _).
  exists results. split; [done|].
  unfold search_agentcore_docs, parse_llms_txt.
  by rewrite Hfetch, index_of_links_build, Hsearch.
Qed.

(** X24: once the document list is fetched, [search_agentcore_docs] returns
    a response, of at most [k] entries; the URL of every entry is an
    allowed one, and it is the URL of a link of the list whose title,
    normalized, is the title of the entry. *)
Theorem search_agentcore_docs_results
    (w w1 : World) (txt query : str) (k : nat) :
  fetch_url w LLMS_TXT_URL = (w1, Some txt) →
  ∃ w' rs,
    search_agentcore_docs unescape World fetch_url round_ w query (Z.of_nat k)
    = (w', Some rs)
    ∧ length rs ≤ k
    ∧ Forall (λ r, is_url_allowed (Result.url r) = true
                   ∧ ∃ l, l ∈ llms_links txt
                          ∧ Result.url r = l.2
                          ∧ Result.title r = normalize l.1) rs.
Proof.
  intros Hfetch.
  destruct (search_docs (map doc_of_link (llms_links txt)) query (Z.of_nat k))
    as (results & Hsearch & Hdocs & Hlen).
  destruct (search_agentcore_docs_fetched w w1 txt query (Z.of_nat k) Hfetch)
    as (results' & Hsearch' & ->).
  assert (results' = results) as -> by congruence.
  destruct (hydrate _ _ _ _ _ _) as [w' url_cache].
  exists w', (map (response_entry round_ url_cache) results).
  split; [done|]. split.
  { rewrite length_map. specialize (Hlen ltac:(lia)). lia. }
  apply Forall_forall.
  intros r ([s d] & <- & Hin%list_elem_of_In)%list_elem_of_In%in_map_iff.
  apply Hdocs, elem_of_map_doc_of_link in Hin as (l & Hl & Huri & Htitle).
  destruct (llms_links_normalized txt l Hl) as [Hallowed _].
  cbn [response_entry Result.url Result.title]. rewrite Huri, Htitle.
  split; [done|]. by exists l.
Qed.

(** X25: the only exception that [search_agentcore_docs] lets through is
    the one of the request for the document list: it raises if and only if
    that request fails, whatever the later requests do. *)
Theorem search_agentcore_docs_raises (w : World) (query : str) (k : Z) :
  (search_agentcore_docs unescape World fetch_url round_ w query k).2 = None
  ↔ (fetch_url w LLMS_TXT_URL).2 = None.
Proof.
  destruct (fetch_url w LLMS_TXT_URL) as [w1 [txt|]] eqn:Hfetch.
  - destruct (search_agentcore_docs_fetched w w1 txt query k Hfetch)
      as (results & _ & ->).
    by destruct (hydrate _ _ _ _ _ _).
  - unfold search_agentcore_docs, parse_llms_txt. by rewrite Hfetch.
Qed.

End responses.

Section hydration.

Context (unescape : str → str) {World : Type}.
Context (fetch_url : World → str → World * option str).
Context (round_ : R → Z → R).

Lemma fetch_and_clean_Some w page_url w' p :
  fetch_and_clean unescape World fetch_url w page_url = (w', Some p) →
  ∃ raw,
    normalize_url page_url = Some (Page.url p)
    ∧ fetch_url w (Page.url p) = (w', Some raw).
Proof.
  unfold fetch_and_clean.
  destruct (normalize_url page_url) as [u|]; [|done].
  destruct (fetch_url w u) as [w1 [raw|]] eqn:Hraw; [|done].
  intros Hp. exists raw.
  by destruct (_ || _); injection Hp as <- <-.
Qed.

(** The pages of the cache after the first loop were in it before, or
    [fetch_and_clean] has returned them for the URL of a result. *)
Lemma hydrate_cache w url_cache results u p :
  (hydrate unescape World fetch_url w url_cache results).2 !! u = Some p →
  url_cache !! u = Some p
  ∨ ∃ w0 w1 s d,
      (s, d) ∈ results ∧ Doc.uri d = u
      ∧ fetch_and_clean unescape World fetch_url w0 u = (w1, Some p).
Proof.
  revert w url_cache.
  induction results as [|[s d] results IH]; intros w url_cache; [by left|].
  cbn [hydrate].
  assert (∀ w2 c2,
    (hydrate unescape World fetch_url w2 c2 results).2 !! u = Some p →
    c2 !! u = Some p
    ∨ ∃ w0 w1 s0 d0,
        (s0, d0) ∈ (s, d) :: results ∧ Doc.uri d0 = u
        ∧ fetch_and_clean unescape World fetch_url w0 u = (w1, Some p))
    as IH'.
  { intros w2 c2 [?|(w0 & w1 & s0 & d0 & Hin & ?)]%IH; [by left|].
    right. exists w0, w1, s0, d0. split; [by right|done]. }
  destruct (url_cache !! Doc.uri d) eqn:Hget; [apply IH'|].
  destruct (fetch_and_clean _ _ _ _ _) as [w' [page|]] eqn:Hpage;
    [|apply IH'].
  intros [[[<- <-]|[_ ?]]%lookup_insert_Some|?]%IH'; [|by left|by right].
  right. exists w, w', s, d. split; [by left|done].
Qed.

(** The pages that the first loop of [search_agentcore_docs] puts into the
    cache: each is filed under its own URL, and comes from a request for
    that URL that was answered. *)
Lemma search_cache_pages w1 txt query k results u p :
  search (build (map doc_of_link (llms_links txt))) query k = Some results →
  (hydrate unescape World fetch_url w1 ∅
     (slice_to results SNIPPET_HYDRATE_MAX)).2 !! u = Some p →
  Page.url p = u ∧ ∃ w0 w2 raw, fetch_url w0 u = (w2, Some raw).
Proof.
  intros Hsearch
    [?|(w0 & w2 & s & d & Hin & Huri & Hpage)]%hydrate_cache; [done|].
  apply fetch_and_clean_Some in Hpage as (raw & Hnorm & Hraw).
  assert (Page.url p = u) as Hurl.
  { apply slice_to_subseteq in Hin.
    destruct (search_docs (map doc_of_link (llms_links txt)) query k)
      as (results' & Hsearch' & Hdocs & _).
    assert (results' = results) as -> by congruence.
    apply Hdocs, elem_of_map_doc_of_link in Hin as (l & Hl & Hl2 & _).
    destruct (llms_links_normalized txt l Hl) as [_ Hfix].
    rewrite <- Huri, Hl2, Hfix in Hnorm. congruence. }
  split; [done|]. rewrite Hurl in Hraw. eauto.
Qed.

(** X26: without the pages, the response is still there, with the titles
    as snippets: if the document list is fetched and every request for
    another URL fails, then every entry of the response, except one for the
    URL of the document list itself, has its title as its snippet. *)
Theorem search_agentcore_docs_offline
    (w w1 : World) (txt query : str) (k : Z) :
  fetch_url w LLMS_TXT_URL = (w1, Some txt) →
  (∀ w u, u ≠ LLMS_TXT_URL → (fetch_url w u).2 = None) →
  ∃ w' rs,
    search_agentcore_docs unescape World fetch_url round_ w query k
    = (w', Some rs)
    ∧ Forall (λ r, Result.url r ≠ LLMS_TXT_URL
                   → Result.snippet r = Result.title r) rs.
Proof.
  intros Hfetch Hoff.
  destruct (search_agentcore_docs_fetched unescape fetch_url round_
              w w1 txt query k Hfetch) as (results & Hsearch & ->).
  pose proof (search_cache_pages w1 txt query k results) as Hpages.
  destruct (hydrate _ _ _ _ _ _) as [w' url_cache].
  exists w', (map (response_entry round_ url_cache) results).
  split; [done|]. apply Forall_forall.
  intros r ([s d] & <- & Hin)%list_elem_of_In%in_map_iff.
  cbn [response_entry Result.url Result.title Result.snippet]. intros Hd.
  destruct (url_cache !! Doc.uri d) as [p|] eqn:Hp; [|done].
  destruct (Hpages _ _ Hsearch Hp) as (_ & w0 & w2 & raw & Hraw).
  specialize (Hoff w0 (Doc.uri d) Hd). by rewrite Hraw in Hoff.
Qed.


Lemma fetch_and_clean_count (w : nat * World) page_url :
  w.1 ≤ (fetch_and_clean unescape _ (counting fetch_url) w page_url).1.1
      ≤ w.1 + 1.
Proof.
  unfold fetch_and_clean, counting.
  destruct (normalize_url page_url) as [u|]; [|cbn; lia].
  destruct (fetch_url w.2 u) as [w1 [raw|]]; [|cbn; lia].
  destruct (_ || _); cbn; lia.
Qed.

Lemma hydrate_count (w : nat * World) url_cache results :
  w.1 ≤ (hydrate unescape _ (counting fetch_url) w url_cache results).1.1
      ≤ w.1 + length results.
Proof.
  revert w url_cache.
  induction results as [|[s d] results IH]; intros w url_cache.
  { cbn. lia. }
  cbn [hydrate length].
  destruct (url_cache !! Doc.uri d).
  { specialize (IH w url_cache). lia. }
  pose proof (fetch_and_clean_count w (Doc.uri d)) as Hc.
  destruct (fetch_and_clean _ _ _ _ _) as [w' [page|]]; cbn [fst] in Hc.
  - specialize (IH w' (<[Doc.uri d:=page]> url_cache)). lia.
  - specialize (IH w' url_cache). lia.
Qed.

(** X28: a call of [search_agentcore_docs] makes at least one request and
    at most six, the one for the document list and one for each of the
    first [SNIPPET_HYDRATE_MAX] results: on a network that counts its
    requests, the count goes up by that much, whatever the query, [k] and
    the answers are. *)
Theorem search_agentcore_docs_requests
    (n : nat) (w : World) (query : str) (k : Z) :
  n < (search_agentcore_docs unescape _ (counting fetch_url) round_
         (n, w) query k).1.1
    ≤ n + 1 + Z.to_nat SNIPPET_HYDRATE_MAX.
Proof.
  destruct (fetch_url w LLMS_TXT_URL) as [w1 [txt|]] eqn:Hfetch.
  - assert (counting fetch_url (n, w) LLMS_TXT_URL = ((S n, w1), Some txt))
      as Hcount by (unfold counting; cbn [snd fst]; by rewrite Hfetch).
    destruct (search_agentcore_docs_fetched unescape (counting fetch_url)
                round_ (n, w) (S n, w1) txt query k Hcount)
      as (results & _ & ->).
    pose proof (hydrate_count (S n, w1) ∅
                  (slice_to results SNIPPET_HYDRATE_MAX)) as Hc.
    destruct (hydrate _ _ _ _ _ _) as [w' url_cache]. cbn [fst] in Hc |- *.
    assert (length (slice_to results SNIPPET_HYDRATE_MAX)
            ≤ Z.to_nat SNIPPET_HYDRATE_MAX) as Hlen.
    { unfold slice_to, SNIPPET_HYDRATE_MAX. cbn [Z.leb Z.compare].
      rewrite length_take. lia. }
    lia.
  - unfold search_agentcore_docs, parse_llms_txt, counting. cbn [snd fst].
    rewrite Hfetch. cbn. lia.
Qed.

End hydration.

(* ===================================================================== *)
(** ** The patterns for HTML on texts without tags *)
(* ===================================================================== *)

Lemma startswith_ci_lt pat c s :
  c ≠ "<"%char → Html.startswith_ci ("<"%char :: pat) (c :: s) = false.
Proof.
  intros Hc. unfold Html.startswith_ci. cbn [length take Str.lower map].
  cbn [Str.startswith]. rewrite bool_decide_eq_false_2; [done|].
  intros Heq. apply Hc, lower_char_lt. by rewrite <- Heq.
Qed.

Lemma sub_from_no_match match_at repl s :
  (∀ c s', c ≠ "<"%char → match_at (c :: s') = None) →
  "<"%char ∉ s → Html.sub_from match_at repl 0 s = s.
Proof.
  intros Hmatch. induction s as [|c s IH]; [done|].
  intros [Hc Hs]%not_elem_of_cons. cbn [Html.sub_from].
  rewrite Hmatch by done. by rewrite IH.
Qed.

Lemma HTML_BLOCK_match_lt c s :
  c ≠ "<"%char → Html.HTML_BLOCK_match (c :: s) = None.
Proof.
  intros Hc. cbn [Html.HTML_BLOCK_match].
  destruct (Char.is_code 60 c) eqn:Hcode; [|done].
  destruct c as [[] [] [] [] [] [] [] []]; done.
Qed.

Lemma TAG_match_lt c s : c ≠ "<"%char → Html.TAG_match (c :: s) = None.
Proof.
  intros Hc. cbn [Html.TAG_match].
  destruct (Char.is_code 60 c) eqn:Hcode; [|done].
  destruct c as [[] [] [] [] [] [] [] []]; done.
Qed.

(** X29: on a text without the character [<], the patterns of
    [html_to_text] find nothing to remove: what it returns are the lines of
    the unescaped text, stripped, the empty ones left out. *)
Theorem html_to_text_plain (unescape : str → str) (raw : str) :
  "<"%char ∉ raw →
  html_to_text unescape raw
  = Str.join [LF]
      (filter (λ ln, ln ≠ []) (map Str.strip (Str.splitlines (unescape raw)))).
Proof.
  intros Hraw. unfold html_to_text, Html.TAG_sub, Html.HTML_BLOCK_sub.
  rewrite (sub_from_no_match Html.HTML_BLOCK_match) by
    (done || apply HTML_BLOCK_match_lt).
  by rewrite (sub_from_no_match Html.TAG_match) by
    (done || apply TAG_match_lt).
Qed.

Lemma TITLE_TAG_match_lt c s :
  c ≠ "<"%char → Html.TITLE_TAG_match (c :: s) = None.
Proof.
  intros Hc. unfold Html.TITLE_TAG_match.
  change (py "<title") with ("<"%char :: py "title").
  by rewrite startswith_ci_lt.
Qed.

Lemma TITLE_TAG_search_match s g :
  Html.TITLE_TAG_match s = Some g → Html.TITLE_TAG_search s = Some g.
Proof. intros Hg. destruct s; cbn [Html.TITLE_TAG_search]; by rewrite Hg. Qed.

Lemma TITLE_TAG_search_skip pre s :
  "<"%char ∉ pre →
  Html.TITLE_TAG_search (pre ++ s) = Html.TITLE_TAG_search s.
Proof.
  induction pre as [|c pre IH]; [done|].
  intros [Hc Hpre]%not_elem_of_cons.
  cbn [app]. destruct s as [|x s]; cbn [Html.TITLE_TAG_search];
    rewrite TITLE_TAG_match_lt by done; by apply IH.
Qed.

Lemma find_from_ci_skip pat t s :
  "<"%char ∉ t →
  Html.find_from true ("<"%char :: pat) (t ++ s)
  = (λ n, length t + n) <$> Html.find_from true ("<"%char :: pat) s.
Proof.
  induction t as [|c t IH]; intros Ht.
  { cbn [app length]. by destruct (Html.find_from _ _ _). }
  apply not_elem_of_cons in Ht as [Hc Ht].
  cbn [app length Html.find_from]. rewrite startswith_ci_lt by done.
  rewrite IH by done.
  destruct (Html.find_from true ("<"%char :: pat) s); reflexivity.
Qed.

(** X30: [extract_html_title] finds the first [title] element: for a page
    that has no [<] before the element nor in its text, it returns the text
    of the element, unescaped and then stripped. *)
Theorem extract_html_title_first (unescape : str → str) (pre t post : str) :
  "<"%char ∉ pre →
  "<"%char ∉ t →
  extract_html_title unescape
    (pre ++ py "<title>" ++ t ++ py "</title>" ++ post)
  = Some (Str.strip (unescape t)).
Proof.
  intros Hpre Ht. unfold extract_html_title.
  rewrite TITLE_TAG_search_skip by done.
  assert (Html.TITLE_TAG_match (py "<title>" ++ t ++ py "</title>" ++ post)
          = Some t) as Hmatch.
  { unfold Html.TITLE_TAG_match.
    change (Html.startswith_ci (py "<title") (py "<title>" ++ _)) with true.
    cbv iota.
    change (drop 6 (py "<title>" ++ t ++ py "</title>" ++ post))
      with (py ">" ++ t ++ py "</title>" ++ post).
    change (Html.find_from false (py ">") (py ">" ++ _)) with (Some 0).
    cbn [mbind option_bind].
    change (drop 1 (py ">" ++ t ++ py "</title>" ++ post))
      with (t ++ py "</title>" ++ post).
    rewrite (find_from_ci_skip (py "/title>") t) by done.
    change (Html.find_from true _ (py "</title>" ++ post)) with (Some 0).
    cbn [fmap option_fmap option_map mbind option_bind].
    by rewrite Nat.add_0_r, take_app_length. }
  by rewrite (TITLE_TAG_search_match _ _ Hmatch).
Qed.

(* ===================================================================== *)
(** ** The theorems at work *)
(* ===================================================================== *)

Lemma fetch_and_clean_plain_witness :
  normalize_url (py "/notes.md") = Some (URL_BASE ++ py "/notes.md")
  ∧ ("<"%char ∉ py "Plain notes.")
  ∧ ∃ title,
      fetch_and_clean (λ s, s) unit (λ w _, (w, Some (py "Plain notes.")))
        tt (py "/notes.md")
      = (tt, Some (Page.make (URL_BASE ++ py "/notes.md") title
                     (py "Plain notes.")))
      ∧ title ≠ [].
Proof.
  assert ("<"%char ∉ py "Plain notes.") as Hlt.
  { refine (bool_decide_unpack _ _). vm_compute. exact I. }
  split; [reflexivity|]. split; [exact Hlt|].
  apply (fetch_and_clean_plain (λ s, s) (λ w _, (w, Some (py "Plain notes.")))
           tt tt (py "/notes.md")); [reflexivity|reflexivity|exact Hlt].
Defined.

Lemma search_agentcore_docs_allowed_only_witness :
  (∀ (w : unit) u, is_url_allowed u = true →
     same_page w u = (if is_url_allowed u then same_page w u else (w, None)))
  ∧ search_agentcore_docs (λ s, s) unit same_page (λ x _, x) tt
      (py "runtime") 5
    = search_agentcore_docs (λ s, s) unit
        (λ w u, if is_url_allowed u then same_page w u else (w, None))
        (λ x _, x) tt (py "runtime") 5.
Proof.
  assert (∀ (w : unit) u, is_url_allowed u = true →
     same_page w u = (if is_url_allowed u then same_page w u else (w, None)))
    as Hsame by (by intros w u ->).
  split; [exact Hsame|].
  exact (search_agentcore_docs_allowed_only (λ s, s) same_page (λ x _, x)
           (λ w u, if is_url_allowed u then same_page w u else (w, None))
           tt (py "runtime") 5 Hsame).
Defined.

Lemma search_agentcore_docs_results_witness :
  same_page tt LLMS_TXT_URL = (tt, Some example_list)
  ∧ ∃ w' rs,
      search_agentcore_docs (λ s, s) unit same_page (λ x _, x) tt
        (py "runtime") (Z.of_nat 5)
      = (w', Some rs)
      ∧ length rs ≤ 5
      ∧ Forall (λ r, is_url_allowed (Result.url r) = true
                     ∧ ∃ l, l ∈ llms_links example_list
                            ∧ Result.url r = l.2
                            ∧ Result.title r = normalize l.1) rs.
Proof.
  split; [reflexivity|].
  apply (search_agentcore_docs_results (λ s, s) same_page (λ x _, x)
           tt tt example_list (py "runtime") 5).
  reflexivity.
Defined.

Lemma search_agentcore_docs_offline_witness :
  list_only tt LLMS_TXT_URL = (tt, Some example_list)
  ∧ (∀ w u, u ≠ LLMS_TXT_URL → (list_only w u).2 = None)
  ∧ ∃ w' rs,
      search_agentcore_docs (λ s, s) unit list_only (λ x _, x) tt
        (py "runtime") 5
      = (w', Some rs)
      ∧ Forall (λ r, Result.url r ≠ LLMS_TXT_URL
                     → Result.snippet r = Result.title r) rs.
Proof.
  assert (∀ w u, u ≠ LLMS_TXT_URL → (list_only w u).2 = None) as Hoff.
  { intros w u Hu. unfold list_only. cbn [snd]. by rewrite decide_False. }
  split; [reflexivity|]. split; [exact Hoff|].
  apply (search_agentcore_docs_offline (λ s, s) list_only (λ x _, x)
           tt tt example_list (py "runtime") 5); [reflexivity|exact Hoff].
Defined.


Lemma html_to_text_plain_witness :
  ("<"%char ∉ py "  first line  " ++ [LF; LF] ++ py "second")
  ∧ html_to_text (λ s, s) (py "  first line  " ++ [LF; LF] ++ py "second")
    = Str.join [LF]
        (filter (λ ln, ln ≠ [])
           (map Str.strip
              (Str.splitlines
                 (py "  first line  " ++ [LF; LF] ++ py "second")))).
Proof.
  assert ("<"%char ∉ py "  first line  " ++ [LF; LF] ++ py "second") as Hlt.
  { refine (bool_decide_unpack _ _). vm_compute. exact I. }
  split; [exact Hlt|].
  exact (html_to_text_plain (λ s, s) _ Hlt).
Defined.

Lemma extract_html_title_first_witness :
  ("<"%char ∉ py "page ")
  ∧ ("<"%char ∉ py " Quick Start ")
  ∧ extract_html_title (λ s, s)
      (py "page " ++ py "<title>" ++ py " Quick Start " ++ py "</title>"
       ++ py "<p>x</p>")
    = Some (Str.strip (py " Quick Start ")).
Proof.
  assert ("<"%char ∉ py "page ") as Hpre.
  { refine (bool_decide_unpack _ _). vm_compute. exact I. }
  assert ("<"%char ∉ py " Quick Start ") as Ht.
  { refine (bool_decide_unpack _ _). vm_compute. exact I. }
  split; [exact Hpre|]. split; [exact Ht|].
  exact (extract_html_title_first (λ s, s) _ _ (py "<p>x</p>") Hpre Ht).
Defined.
